(** * DjangoFlix videos: publication lifecycle

    A shallow embedding of [src/videos/models.py] and [src/videos/admin.py]:
    the [Video] row, the instance-level visibility check [is_published], the
    queryset filter [VideoQuerySet.published], model validation [clean], the
    proxy models with their orderings and the admin bulk action. *)

From Stdlib Require Import ZArith List String Ascii Bool Lia.
From Stdlib Require Import Permutation Sorted DecimalString.
From Stdlib Require DecimalFacts DecimalPos DecimalN.
Import ListNotations.

Local Open Scope string_scope.
Local Open Scope list_scope.
Local Open Scope Z_scope.

(** ** Values *)

(** A timezone-aware [datetime] is an instant: microseconds since the epoch.
    Comparison of two aware datetimes is comparison of the instants. *)
Definition datetime := Z.

Definition second : Z := 1000000.
Definition hour : Z := 3600 * second.

(** Modelled from the spec: [PublishStateOptions] is declared in
    djangoflix/db/models.py, which is not among the sources; the spec gives
    the enumeration [{DRAFT, PUBLISH}] with default [DRAFT]. *)
Inductive PublishStateOptions : Type :=
| DRAFT
| PUBLISH.

Definition state_eqb (a b : PublishStateOptions) : bool :=
  match a, b with
  | DRAFT, DRAFT | PUBLISH, PUBLISH => true
  | _, _ => false
  end.

(** The exceptions the modelled code can raise. *)
Inductive exn : Type :=
| ValidationError (message : string)
| NameError (name : string)
| AttributeError (attribute : string)
| IntegrityError (column : string)
| DoesNotExist.

Inductive result (A : Type) : Type :=
| Ok (a : A)
| Raise (e : exn).
Arguments Ok {A} a.
Arguments Raise {A} e.

(** ** The model: [class Video(models.Model)] *)

Record Video : Type := mkVideo {
  pk : Z;
  title : string;
  description : option string;
  slug : option string;
  video_id : string;
  active : bool;
  created : datetime;
  updated : datetime;
  state : PublishStateOptions;
  publish_timestamp : option datetime
}.

Definition set_active (b : bool) (r : Video) : Video :=
  mkVideo (pk r) (title r) (description r) (slug r) (video_id r) b
          (created r) (updated r) (state r) (publish_timestamp r).

Definition set_slug (s : option string) (r : Video) : Video :=
  mkVideo (pk r) (title r) (description r) s (video_id r) (active r)
          (created r) (updated r) (state r) (publish_timestamp r).

(** Python truthiness of a nullable [DateTimeField]: [None] is falsy and every
    [datetime] object is truthy. *)
Definition truthy (t : option datetime) : bool :=
  match t with
  | None => false
  | Some _ => true
  end.

(** [Video.clean]: the message is the one the source raises; the closing
    [super().clean()] is the empty hook of [models.Model]. *)
Definition MissingPublishTimestamp : exn :=
  ValidationError "A publish timestamp is required when state is set to PUBLISH".

Definition clean (self : Video) : result unit :=
  if state_eqb (state self) PUBLISH && negb (truthy (publish_timestamp self))
  then Raise MissingPublishTimestamp
  else Ok tt.

(** [Video.is_published]; the clock reading [timezone.now()] is the argument
    [now]. *)
Definition is_published (self : Video) (now : datetime) : bool :=
  if negb (active self) then false
  else if negb (state_eqb (state self) PUBLISH) then false
  else match publish_timestamp self with
       | None => false
       | Some t => t <=? now
       end.

(** [Video.get_video_id]. *)
Definition get_video_id (self : Video) (now : datetime) : option string :=
  if is_published self now then Some (video_id self) else None.

(** ** Querysets *)

(** The field lookup [publish_timestamp__lte=now]: a SQL comparison with a
    NULL column is not true, so a row without a timestamp is not selected. *)
Definition lookup_lte (column : option datetime) (v : datetime) : bool :=
  match column with
  | None => false
  | Some t => t <=? v
  end.

(** The columns the orderings of the source name. *)
Inductive column : Type :=
| col_created
| col_publish_timestamp.

Definition column_value (c : column) (r : Video) : option datetime :=
  match c with
  | col_created => Some (created r)
  | col_publish_timestamp => publish_timestamp r
  end.

(** An ordering term: ['-created'] is [Desc col_created]. *)
Inductive order_term : Type :=
| Asc (c : column)
| Desc (c : column).

(** A lazy queryset: the conjunction of the filters applied so far and the
    ordering in force. *)
Record QuerySet : Type := mkQuerySet {
  qs_where : Video -> bool;
  qs_ordering : list order_term
}.

Definition qs_filter (p : Video -> bool) (qs : QuerySet) : QuerySet :=
  mkQuerySet (fun r => qs_where qs r && p r) (qs_ordering qs).

Definition qs_order_by (o : list order_term) (qs : QuerySet) : QuerySet :=
  mkQuerySet (qs_where qs) o.

(** [VideoQuerySet.published]: the three keyword arguments of [filter]. *)
Definition published_filter (now : datetime) (r : Video) : bool :=
  state_eqb (state r) PUBLISH
  && lookup_lte (publish_timestamp r) now
  && Bool.eqb (active r) true.

Definition VideoQuerySet_published (now : datetime) (self : QuerySet) : QuerySet :=
  qs_filter (published_filter now) self.

(** *** Ordering *)

(** Where NULL sorts is the database backend's choice (PostgreSQL treats NULL
    as larger than every value, SQLite and MySQL as smaller); the settings
    are not part of the sources, so the backend is the parameter
    [nulls_largest]. *)
Definition null_compare (nulls_largest : bool) (x y : option datetime) : comparison :=
  match x, y with
  | None, None => Eq
  | None, Some _ => if nulls_largest then Gt else Lt
  | Some _, None => if nulls_largest then Lt else Gt
  | Some a, Some b => a ?= b
  end.

Definition term_compare (nl : bool) (t : order_term) (r1 r2 : Video) : comparison :=
  match t with
  | Asc c => null_compare nl (column_value c r1) (column_value c r2)
  | Desc c => CompOpp (null_compare nl (column_value c r1) (column_value c r2))
  end.

(** ORDER BY with several terms is lexicographic. *)
Fixpoint ordering_compare (nl : bool) (o : list order_term) (r1 r2 : Video) : comparison :=
  match o with
  | [] => Eq
  | t :: o' =>
      match term_compare nl t r1 r2 with
      | Eq => ordering_compare nl o' r1 r2
      | c => c
      end
  end.

Definition precedes (nl : bool) (o : list order_term) (r1 r2 : Video) : bool :=
  match ordering_compare nl o r1 r2 with
  | Gt => false
  | _ => true
  end.

Fixpoint insert_row (nl : bool) (o : list order_term) (r : Video) (l : list Video) : list Video :=
  match l with
  | [] => [r]
  | x :: l' => if precedes nl o r x then r :: l else x :: insert_row nl o r l'
  end.

Fixpoint sort_rows (nl : bool) (o : list order_term) (l : list Video) : list Video :=
  match l with
  | [] => []
  | x :: l' => insert_row nl o x (sort_rows nl o l')
  end.

(** Evaluating a queryset against the table: WHERE, then ORDER BY.  Rows
    that compare equal keep the order of the table; SQL leaves their order
    open. *)
Definition evaluate (nl : bool) (db : list Video) (qs : QuerySet) : list Video :=
  sort_rows nl (qs_ordering qs) (filter (qs_where qs) db).

(** *** Models and managers *)

Inductive model_class : Type :=
| Video_model
| VideoAllProxy
| VideoPublishedProxy.

(** [class Meta: ordering = ...] of each model. *)
Definition Meta_ordering (m : model_class) : list order_term :=
  match m with
  | Video_model => [Desc col_publish_timestamp; Desc col_created]
  | VideoAllProxy => [Desc col_created]
  | VideoPublishedProxy => [Desc col_publish_timestamp]
  end.

(** [VideoManager.get_queryset]: [VideoQuerySet(self.model, using=self._db)],
    every row of the table under the ordering of the manager's model.  The
    proxies declare no manager of their own and inherit [objects]. *)
Definition VideoManager_get_queryset (m : model_class) : QuerySet :=
  mkQuerySet (fun _ => true) (Meta_ordering m).

(** [VideoManager.published]. *)
Definition VideoManager_published (now : datetime) (m : model_class) : QuerySet :=
  VideoQuerySet_published now (VideoManager_get_queryset m).

(** The method resolution order above [VideoPublishedProxy] is [Video], then
    [models.Model].  [Video] defines the methods below; [models.Model] offers
    saving and validation but no [get_queryset], which is a manager method. *)
Definition Video_methods : list string :=
  ["__str__"; "clean"; "get_video_id"; "is_published"; "get_playlist_ids"].

Definition Model_methods : list string :=
  ["clean"; "full_clean"; "save"; "delete"; "refresh_from_db"].

Definition super_has (name : string) : bool :=
  existsb (String.eqb name) Video_methods || existsb (String.eqb name) Model_methods.

(** [VideoPublishedProxy.get_queryset], an instance method of the model:
    [super().get_queryset().published()]. *)
Definition VideoPublishedProxy_get_queryset (now : datetime) : result QuerySet :=
  if super_has "get_queryset"
  then Ok (VideoQuerySet_published now (VideoManager_get_queryset Video_model))
  else Raise (AttributeError "get_queryset").

(** ** The admin: [src/videos/admin.py] *)

(** [ModelAdmin.get_queryset(request)]: the default manager's queryset of the
    registered model, re-ordered by the admin's [ordering] when it has one. *)
Definition ModelAdmin_get_queryset (m : model_class) (ordering : list order_term) : QuerySet :=
  let qs := VideoManager_get_queryset m in
  match ordering with
  | [] => qs
  | _ => qs_order_by ordering qs
  end.

Definition VideoPublishedProxyAdmin_ordering : list order_term :=
  [Desc col_publish_timestamp].

(** [VideoPublishedProxyAdmin.get_queryset]:
    [super().get_queryset(request).filter(active=True)]. *)
Definition VideoPublishedProxyAdmin_get_queryset : QuerySet :=
  qs_filter (fun r => Bool.eqb (active r) true)
            (ModelAdmin_get_queryset VideoPublishedProxy VideoPublishedProxyAdmin_ordering).

(** The queryset an admin action receives: the rows of the admin's queryset
    whose primary key was ticked. *)
Definition selected (ids : list Z) (qs : QuerySet) : QuerySet :=
  qs_filter (fun r => existsb (Z.eqb (pk r)) ids) qs.

(** [QuerySet.update(active=...)]: one UPDATE statement over the rows the
    queryset selects; returns the number of rows matched.  It bypasses
    [save()], so no other column (not even [updated]) is written. *)
Definition qs_update_active (v : bool) (qs : QuerySet) (db : list Video) : list Video * nat :=
  (map (fun r => if qs_where qs r then set_active v r else r) db,
   List.length (filter (qs_where qs) db)).

(** The names bound at module level in admin.py: its three imports and its
    two classes. *)
Definition admin_globals : list string :=
  ["admin"; "format_html"; "VideoAllProxy"; "VideoPublishedProxy";
   "VideoAllAdmin"; "VideoPublishedProxyAdmin"].

(** Loading a global name that is neither bound in the module nor a builtin
    raises [NameError]. *)
Definition load_global (name : string) : result unit :=
  if existsb (String.eqb name) admin_globals then Ok tt else Raise (NameError name).

(** [f'{updated} video(s) were successfully unpublished.'] *)
Definition unpublished_message (updated : nat) : string :=
  (NilZero.string_of_uint (Nat.to_uint updated)
   ++ " video(s) were successfully unpublished.")%string.

(** [VideoPublishedProxyAdmin.unpublish_selected]: the update runs first; the
    arguments of [message_user] are evaluated next, among them
    [messages.SUCCESS].  The result pairs the table after the call with the
    message shown to the user, or the exception raised. *)
Definition unpublish_selected (queryset : QuerySet) (db : list Video)
  : list Video * result string :=
  let (db', updated) := qs_update_active false queryset db in
  match load_global "messages" with
  | Raise e => (db', Raise e)
  | Ok _ => (db', Ok (unpublished_message updated))
  end.

(** ** Slug Assigner *)

Definition separator : ascii := "-"%char.

Definition is_separator (c : ascii) : bool := Ascii.eqb c separator.

Definition in_range (lo hi : N) (c : ascii) : bool :=
  ((lo <=? N_of_ascii c) && (N_of_ascii c <=? hi))%N.

Definition is_digit : ascii -> bool := in_range 48 57.
Definition is_upper : ascii -> bool := in_range 65 90.
Definition is_lower : ascii -> bool := in_range 97 122.

Definition is_alnum (c : ascii) : bool := is_digit c || is_upper c || is_lower c.

Definition to_lower (c : ascii) : ascii :=
  if is_upper c then ascii_of_N (N_of_ascii c + 32) else c.

(** Lowercase an alphanumeric character; anything else stands for a
    separator. *)
Definition normalise (c : ascii) : ascii :=
  if is_alnum c then to_lower c else separator.

(** A run of separators collapses to its last one. *)
Fixpoint collapse (l : list ascii) : list ascii :=
  match l with
  | [] => []
  | c :: l' =>
      match l' with
      | d :: _ => if is_separator c && is_separator d then collapse l' else c :: collapse l'
      | [] => [c]
      end
  end.

Fixpoint trim_leading (l : list ascii) : list ascii :=
  match l with
  | [] => []
  | c :: l' => if is_separator c then trim_leading l' else l
  end.

Definition trim_trailing (l : list ascii) : list ascii :=
  rev (trim_leading (rev l)).

Definition slug_chars (l : list ascii) : list ascii :=
  trim_trailing (trim_leading (collapse (map normalise l))).

(** Modelled from the spec: [slugify] is called by the receiver
    [slugify_pre_save] of djangoflix/db/receivers.py, which is not among the
    sources.  The spec derives the token from the title: lowercase,
    non-alphanumeric runs collapsed to a single separator, leading and
    trailing separators trimmed. *)
Definition slugify (s : string) : string :=
  string_of_list_ascii (slug_chars (list_ascii_of_string s)).

Definition slug_missing (s : option string) : bool :=
  match s with
  | None => true
  | Some EmptyString => true
  | Some (String _ _) => false
  end.

(** Modelled from the spec: [assignIfMissing] stands for the receiver
    [slugify_pre_save] (djangoflix/db/receivers.py, not among the sources)
    that models.py connects to [pre_save]: if the slug is null or empty,
    derive it from the title and set it; otherwise leave it untouched. *)
Definition assignIfMissing (r : Video) : Video :=
  if slug_missing (slug r) then set_slug (Some (slugify (title r))) r else r.

(** ** The write path *)

(** Modelled from the spec: what runs before a commit.  models.py connects
    [slugify_pre_save] and [publish_state_pre_save] to [pre_save] for every
    model; both receivers are missing from the sources.  The spec's write
    path runs the Slug Assigner and then the validation [clean]; a failing
    validation aborts the write. *)
Definition pre_commit (r : Video) : result Video :=
  let r' := assignIfMissing r in
  match clean r' with
  | Raise e => Raise e
  | Ok _ => Ok r'
  end.

Definition DuplicateExternalId : exn := IntegrityError "video_id".
Definition DuplicateSlug : exn := IntegrityError "slug".

Definition same_slug (a b : option string) : bool :=
  match a, b with
  | Some x, Some y => String.eqb x y
  | _, _ => false
  end.

(** The [unique=True] constraints on [video_id] and [slug], checked by the
    persistence engine against every other row; NULL slugs never collide. *)
Definition unique_violation (r : Video) (db : list Video) : option exn :=
  if existsb (fun x => negb (pk x =? pk r) && String.eqb (video_id x) (video_id r)) db
  then Some DuplicateExternalId
  else if existsb (fun x => negb (pk x =? pk r) && same_slug (slug x) (slug r)) db
  then Some DuplicateSlug
  else None.

Definition next_pk (db : list Video) : Z :=
  1 + fold_right (fun r m => Z.max (pk r) m) 0 db.

Definition find_row (id : Z) (db : list Video) : option Video :=
  find (fun r => pk r =? id) db.

Definition replace_row (r : Video) (db : list Video) : list Video :=
  map (fun x => if pk x =? pk r then r else x) db.

(** Modelled from the spec: [create(input)].  The engine assigns the
    identifier and both timestamps ([auto_now_add], [auto_now]); the
    pre-commit steps run; the row is appended unless a step or a uniqueness
    constraint rejects it, in which case the table is the one before. *)
Definition create (now : datetime) (input : Video) (db : list Video)
  : list Video * result Video :=
  let r0 := mkVideo (next_pk db) (title input) (description input) (slug input)
                    (video_id input) (active input) now now
                    (state input) (publish_timestamp input) in
  match pre_commit r0 with
  | Raise e => (db, Raise e)
  | Ok r =>
      match unique_violation r db with
      | Some e => (db, Raise e)
      | None => (db ++ [r], Ok r)
      end
  end.

(** The fields an update may change; [None] keeps the stored value.  The
    identifier, [created] and a slug once set are not writable. *)
Record Patch : Type := mkPatch {
  p_title : option string;
  p_description : option (option string);
  p_video_id : option string;
  p_active : option bool;
  p_state : option PublishStateOptions;
  p_publish_timestamp : option (option datetime)
}.

Definition or_keep {A : Type} (new : option A) (old : A) : A :=
  match new with
  | Some v => v
  | None => old
  end.

Definition apply_patch (now : datetime) (p : Patch) (r : Video) : Video :=
  mkVideo (pk r)
          (or_keep (p_title p) (title r))
          (or_keep (p_description p) (description r))
          (slug r)
          (or_keep (p_video_id p) (video_id r))
          (or_keep (p_active p) (active r))
          (created r)
          now
          (or_keep (p_state p) (state r))
          (or_keep (p_publish_timestamp p) (publish_timestamp r)).

(** Modelled from the spec: [update(id, patch)], the same pre-commit steps
    on the patched row. *)
Definition update (now : datetime) (id : Z) (p : Patch) (db : list Video)
  : list Video * result Video :=
  match find_row id db with
  | None => (db, Raise DoesNotExist)
  | Some old =>
      match pre_commit (apply_patch now p old) with
      | Raise e => (db, Raise e)
      | Ok r =>
          match unique_violation r db with
          | Some e => (db, Raise e)
          | None => (replace_row r db, Ok r)
          end
      end
  end.

(** The writes that reach the table: the two of the write path and the bulk
    update of the admin action. *)
Inductive step (db : list Video) : list Video -> Prop :=
| step_create (now : datetime) (input : Video) :
    step db (fst (create now input db))
| step_update (now : datetime) (id : Z) (p : Patch) :
    step db (fst (update now id p db))
| step_unpublish (queryset : QuerySet) :
    step db (fst (unpublish_selected queryset db)).

Inductive reachable : list Video -> Prop :=
| reachable_empty : reachable []
| reachable_step (db db' : list Video) :
    reachable db -> step db db' -> reachable db'.

(** [state == PUBLISH] implies a publish timestamp. *)
Definition publish_invariant (r : Video) : Prop :=
  state r = PUBLISH -> publish_timestamp r <> None.

(** ** The published predicate in the spec's words *)

(** [state == PUBLISH AND publishTimestamp <= now AND active == true]; a
    comparison needs a timestamp to compare. *)
Definition published_predicate (now : datetime) (r : Video) : Prop :=
  state r = PUBLISH /\
  (exists t, publish_timestamp r = Some t /\ t <= now) /\
  active r = true.

(** ** What a URL-safe slug is *)

Definition slug_char (c : ascii) : bool :=
  is_digit c || is_lower c || is_separator c.

Definition head_is_separator (l : list ascii) : bool :=
  match l with
  | [] => false
  | c :: _ => is_separator c
  end.

Fixpoint no_separator_run (l : list ascii) : bool :=
  match l with
  | [] => true
  | c :: l' => negb (is_separator c && head_is_separator l') && no_separator_run l'
  end.

(** Lowercase letters, digits and single separators only, with no
    separator at either end. *)
Definition url_safe (s : string) : bool :=
  let l := list_ascii_of_string s in
  forallb slug_char l
  && no_separator_run l
  && negb (head_is_separator l)
  && negb (head_is_separator (rev l)).

(** ** Orders by column *)

(** Publish timestamp descending, ties broken by creation time descending;
    a missing timestamp goes first when the backend sorts NULL as largest
    and last otherwise. *)
Definition timestamp_then_created_desc (nl : bool) (r1 r2 : Video) : Prop :=
  match publish_timestamp r1, publish_timestamp r2 with
  | Some t1, Some t2 => t2 < t1 \/ (t2 = t1 /\ created r2 <= created r1)
  | None, None => created r2 <= created r1
  | None, Some _ => nl = true
  | Some _, None => nl = false
  end.

Definition created_desc (r1 r2 : Video) : Prop := created r2 <= created r1.

(** [r1] may come before [r2] under the ordering [o]. *)
Definition ordered_before (nl : bool) (o : list order_term) (r1 r2 : Video) : Prop :=
  precedes nl o r1 r2 = true.

(** What makes a three-way comparison an ordering of rows. *)
Record comparator (cmp : Video -> Video -> comparison) : Prop := {
  cmp_sym : forall a b, cmp b a = CompOpp (cmp a b);
  cmp_lt_trans : forall a b c, cmp a b = Lt -> cmp b c = Lt -> cmp a c = Lt;
  cmp_eq_compat : forall a b c, cmp a b = Eq -> cmp a c = cmp b c
}.

(** ** Display helpers of the model and the admin *)

Definition double_quote : string := String (ascii_of_N 34) EmptyString.
Definition newline : string := String (ascii_of_N 10) EmptyString.

(** [Video.__str__]: [f"{self.title} ({self.video_id})"]. *)
Definition Video_str (self : Video) : string :=
  (title self ++ " (" ++ video_id self ++ ")")%string.

(** Decimal digits of a natural number, as [str] prints an [int]. *)
Definition decimal (n : N) : string := NilEmpty.string_of_uint (N.to_uint n).

Fixpoint zeros (k : nat) : string :=
  match k with
  | O => EmptyString
  | S k' => String "0" (zeros k')
  end.

(** Left fill with zeros up to [width]; longer digit strings are kept whole. *)
Definition zero_fill (width : nat) (digits : string) : string :=
  (zeros (width - String.length digits) ++ digits)%string.

(** The format specification [08d]: the sign counts in the width of 8 and
    comes before the zeros. *)
Definition format_08d (n : Z) : string :=
  if n <? 0
  then String "-" (zero_fill 7 (decimal (Z.to_N (- n))))
  else zero_fill 8 (decimal (Z.to_N n)).

(** [VideoAllAdmin.display_id]: [f"VID-{obj.id:08d}"]. *)
Definition display_id (obj : Video) : string :=
  ("VID-" ++ format_08d (pk obj))%string.

(** Reading a display identifier back: the prefix, an optional sign, digits. *)
Definition digits_value (s : string) : option N :=
  match s with
  | EmptyString => None
  | _ => option_map N.of_uint (NilEmpty.uint_of_string s)
  end.

Definition parse_signed (s : string) : option Z :=
  match s with
  | String "-" digits => option_map (fun n => - Z.of_N n) (digits_value digits)
  | _ => option_map Z.of_N (digits_value s)
  end.

Definition parse_display_id (s : string) : option Z :=
  match s with
  | String "V" (String "I" (String "D" (String "-" rest))) => parse_signed rest
  | _ => None
  end.

(** [format_html] given a template alone: the templates of admin.py hold no
    replacement field, so formatting returns the template, marked safe. *)
Definition format_html (template : string) : string := template.

Definition published_badge : string :=
  ("<span style=" ++ double_quote ++ "color: green; font-weight: bold;"
   ++ double_quote ++ ">Published</span>")%string.

Definition draft_badge : string :=
  ("<span style=" ++ double_quote ++ "color: red; font-weight: bold;"
   ++ double_quote ++ ">Draft</span>")%string.

(** [VideoAllAdmin.display_published_status]. *)
Definition display_published_status (obj : Video) (now : datetime) : string :=
  if is_published obj now then format_html published_badge
  else format_html draft_badge.

(** ** Playlists *)

(** The reverse relation [playlist_featured]: one entry for each playlist
    that references a video, in the order the related manager returns them.
    The playlist model itself belongs to another application. *)
Record PlaylistLink : Type := mkPlaylistLink {
  playlist_id : Z;
  featured_video : Z
}.

(** [Video.get_playlist_ids]:
    [list(self.playlist_featured.all().values_list('id', flat=True))]. *)
Definition get_playlist_ids (self : Video) (playlists : list PlaylistLink) : list Z :=
  map playlist_id (filter (fun p => featured_video p =? pk self) playlists).

(** [playlist_ids.split(',')] on the list [get_playlist_ids] returns: a
    Python list has no attribute [split], whatever it holds. *)
Definition list_split (l : list Z) (sep : string) : result (list string) :=
  Raise (AttributeError "split").

Definition playlist_link (pid : string) : string :=
  ("<a href=" ++ double_quote ++ "/admin/playlists/playlist/" ++ pid ++ "/"
   ++ double_quote ++ ">" ++ pid ++ "</a>")%string.

(** [VideoPublishedProxyAdmin.playlist_links]: an empty list is falsy. *)
Definition playlist_links (obj : Video) (playlists : list PlaylistLink) : result string :=
  let playlist_ids := get_playlist_ids obj playlists in
  match playlist_ids with
  | [] => Ok "-"
  | _ :: _ =>
      match list_split playlist_ids "," with
      | Raise e => Raise e
      | Ok pieces => Ok (format_html (String.concat ", " (map playlist_link pieces)))
      end
  end.

(** ** The command-line entry point: [src/manage.py] *)

(** [os.environ], a mapping from names to values in insertion order. *)
Definition environ := list (string * string).

Fixpoint environ_get (k : string) (env : environ) : option string :=
  match env with
  | [] => None
  | (k', v) :: env' => if String.eqb k' k then Some v else environ_get k env'
  end.

(** [os.environ.setdefault(k, v)]: bind [k] only when it has no value. *)
Definition environ_setdefault (k v : string) (env : environ) : environ :=
  match environ_get k env with
  | Some _ => env
  | None => env ++ [(k, v)]
  end.

(** What leaves a call abnormally: an exception of class [Exception], with
    the text [str] gives for it, or [SystemExit] with its status. *)
Inductive raised : Type :=
| Exc (message : string)
| Exit (status : Z).

Inductive outcome : Type :=
| Returns
| Raises (r : raised).

Definition import_error_message : string :=
  ("Couldn't import Django. Are you sure it's installed and "
   ++ "available on your PYTHONPATH environment variable? Did you "
   ++ "forget to activate a virtual environment?")%string.

(** [main]: Django is a parameter, by whether its import succeeds and by
    what [execute_from_command_line] does with the environment and
    [sys.argv]. *)
Definition main (importable : bool)
           (execute_from_command_line : environ -> list string -> outcome)
           (env : environ) (argv : list string) : environ * outcome :=
  let env' := environ_setdefault "DJANGO_SETTINGS_MODULE" "djangoflix.settings" env in
  if importable
  then (env', execute_from_command_line env' argv)
  else (env', Raises (Exc import_error_message)).

(** [handle_exception]: the line printed to [sys.stderr] and the status
    given to [sys.exit]. *)
Definition handle_exception (message : string) : string * Z :=
  (("Error: " ++ message ++ newline)%string, 1).

(** The [__main__] block: [except Exception] catches [Exc] and lets
    [SystemExit] through.  The result is the environment, what the script
    wrote to [sys.stderr] and the exit status of the process. *)
Definition run_script (importable : bool)
           (execute_from_command_line : environ -> list string -> outcome)
           (env : environ) (argv : list string) : environ * string * Z :=
  match main importable execute_from_command_line env argv with
  | (env', Returns) => (env', EmptyString, 0)
  | (env', Raises (Exc message)) =>
      let (err, status) := handle_exception message in (env', err, status)
  | (env', Raises (Exit status)) => (env', EmptyString, status)
  end.

(** ** Orderings of the published listing *)

(** Both rows carry a publish timestamp and the first is not older. *)
Definition newest_first (r1 r2 : Video) : Prop :=
  match publish_timestamp r1, publish_timestamp r2 with
  | Some t1, Some t2 => t2 <= t1
  | _, _ => False
  end.

(** Every column the ordering names has a value in the row. *)
Definition keys_present (o : list order_term) (r : Video) : Prop :=
  forall c, In (Asc c) o \/ In (Desc c) o -> column_value c r <> None.

(** ** Sample records *)

(** A published record with a past timestamp whose kill-switch is off. *)
Definition taken_down : Video :=
  mkVideo 7 "Intro" None (Some "intro") "yt-7" false 100 200 PUBLISH (Some 1000).

(** A published, active record scheduled one hour after the instant 500. *)
Definition scheduled : Video :=
  mkVideo 3 "Trailer" None (Some "trailer") "yt-3" true 0 0 PUBLISH (Some (500 + hour)).

(** An input in state PUBLISH that carries no publish timestamp. *)
Definition unscheduled : Video :=
  mkVideo 0 "Hello, World! 2024" None None "yt-9" true 0 0 PUBLISH None.

(** A table of five rows: three published in the past of the instant 1000,
    a draft, and a premiere scheduled after it. *)
Definition pilot : Video :=
  mkVideo 1 "Pilot" None (Some "pilot") "yt-1" true 10 10 PUBLISH (Some 100).
Definition finale : Video :=
  mkVideo 2 "Finale" None (Some "finale") "yt-2" true 20 20 PUBLISH (Some 300).
Definition special : Video :=
  mkVideo 3 "Special" None (Some "special") "yt-3" true 30 30 PUBLISH (Some 200).
Definition rough_cut : Video :=
  mkVideo 4 "Rough cut" None (Some "rough-cut") "yt-4" true 40 40 DRAFT None.
Definition premiere : Video :=
  mkVideo 5 "Premiere" None (Some "premiere") "yt-5" true 50 50 PUBLISH (Some 9000).

Definition library : list Video := [pilot; finale; special; rough_cut; premiere].

(** A patch that moves a row to PUBLISH and sets no timestamp. *)
Definition publish_patch : Patch :=
  mkPatch None None None None (Some PUBLISH) None.

(** * Properties *)

(** ** Visibility *)

Lemma state_eqb_eq (a b : PublishStateOptions) : state_eqb a b = true <-> a = b.
Proof. destruct a, b; simpl; split; intro H; congruence. Qed.

Lemma is_published_true (r : Video) (now : datetime) :
  is_published r now = true <->
  active r = true /\ state r = PUBLISH /\
  exists t, publish_timestamp r = Some t /\ t <= now.
Proof.
  unfold is_published.
  destruct (active r); simpl.
  - destruct (state r); simpl.
    + split; [discriminate | intros (_ & H & _); discriminate].
    + destruct (publish_timestamp r) as [t|].
      * rewrite Z.leb_le. split.
        -- intro H. repeat split; trivial. exists t. split; trivial.
        -- intros (_ & _ & t' & Ht' & Hle). injection Ht' as <-. exact Hle.
      * split; [discriminate | intros (_ & _ & t & Ht & _); discriminate].
  - split; [discriminate | intros (H & _); discriminate].
Qed.

Lemma published_filter_true (r : Video) (now : datetime) :
  published_filter now r = true <-> published_predicate now r.
Proof.
  unfold published_filter, published_predicate, lookup_lte.
  rewrite !andb_true_iff, state_eqb_eq, eqb_true_iff.
  destruct (publish_timestamp r) as [t|].
  - rewrite Z.leb_le. split.
    + intros [[Hs Hle] Ha]. repeat split; trivial. exists t. split; trivial.
    + intros (Hs & (t' & Ht' & Hle) & Ha). injection Ht' as <-. auto.
  - split.
    + intros [[_ H] _]. discriminate.
    + intros (_ & (t & Ht & _) & _). discriminate.
Qed.

(** *** Sorting keeps the rows *)

Lemma insert_row_perm (nl : bool) (o : list order_term) (r : Video) (l : list Video) :
  Permutation (r :: l) (insert_row nl o r l).
Proof.
  induction l as [|x l IH]; simpl.
  - apply Permutation_refl.
  - destruct (precedes nl o r x).
    + apply Permutation_refl.
    + eapply perm_trans; [apply perm_swap|]. apply perm_skip. exact IH.
Qed.

Lemma sort_rows_perm (nl : bool) (o : list order_term) (l : list Video) :
  Permutation l (sort_rows nl o l).
Proof.
  induction l as [|x l IH]; simpl.
  - apply perm_nil.
  - eapply perm_trans; [|apply insert_row_perm]. apply perm_skip. exact IH.
Qed.

Lemma evaluate_In (nl : bool) (db : list Video) (qs : QuerySet) (r : Video) :
  In r (evaluate nl db qs) <-> In r db /\ qs_where qs r = true.
Proof.
  unfold evaluate. rewrite <- filter_In. split; intro H.
  - eapply Permutation_in; [apply Permutation_sym, sort_rows_perm | exact H].
  - eapply Permutation_in; [apply sort_rows_perm | exact H].
Qed.

(** C1: for a fixed clock reading, a record satisfies the published
    predicate (state PUBLISH, publish timestamp not after the reading,
    active) if and only if [is_published] returns true; the queryset filter
    [published] computes the same boolean as [is_published] on every record,
    so the rows [objects.published()] returns from any table, for any model
    of the hierarchy, are exactly the rows of the table that are visible. *)
Theorem published_filter_agrees_with_is_published (r : Video) (now : datetime) :
  (published_predicate now r <-> is_published r now = true) /\
  (published_filter now r = true <-> published_predicate now r) /\
  published_filter now r = is_published r now /\
  (forall (nl : bool) (db : list Video) (m : model_class),
      In r (evaluate nl db (VideoManager_published now m)) <->
      In r db /\ is_published r now = true).
Proof.
  assert (E : published_filter now r = is_published r now).
  { unfold published_filter, is_published, lookup_lte.
    destruct (active r), (state r), (publish_timestamp r); simpl;
      rewrite ?andb_true_r, ?andb_false_r; reflexivity. }
  split; [|split; [|split]].
  - rewrite is_published_true. unfold published_predicate. tauto.
  - apply published_filter_true.
  - exact E.
  - intros nl db m. rewrite evaluate_In. simpl. rewrite E. tauto.
Qed.

(** C2: [is_published] is true exactly when the record is active, its state
    is PUBLISH, its publish timestamp is present, and that timestamp is not
    after the clock reading; an inactive record is never visible, whatever
    its state and timestamp. *)
Theorem is_published_four_conjuncts (r : Video) (now : datetime) :
  (is_published r now = true <->
   active r = true /\ state r = PUBLISH /\ publish_timestamp r <> None /\
   (forall t, publish_timestamp r = Some t -> t <= now)) /\
  (active r = false -> is_published r now = false).
Proof.
  split.
  - rewrite is_published_true. split.
    + intros (Ha & Hs & t & Ht & Hle). repeat split; trivial.
      * congruence.
      * intros t' Ht'. congruence.
    + intros (Ha & Hs & Hn & Hle). repeat split; trivial.
      destruct (publish_timestamp r) as [t|]; [|congruence].
      exists t. split; auto.
  - intro Ha. unfold is_published. rewrite Ha. reflexivity.
Qed.

Lemma is_published_four_conjuncts_witness :
  state taken_down = PUBLISH /\ publish_timestamp taken_down = Some 1000 /\
  1000 <= 5000 /\ is_published taken_down 5000 = false.
Proof.
  split; [reflexivity|]. split; [reflexivity|]. split; [lia|].
  apply (proj2 (is_published_four_conjuncts taken_down 5000)). reflexivity.
Defined.

(** C7: a published, active record scheduled one hour after the clock
    reading is not visible at that reading, and is visible one second after
    its timestamp; the comparison is [<=], so it is already visible at the
    timestamp itself. *)
Theorem scheduled_record_time_gate (r : Video) (now : datetime) :
  state r = PUBLISH ->
  active r = true ->
  publish_timestamp r = Some (now + hour) ->
  is_published r now = false /\
  is_published r (now + hour + second) = true /\
  is_published r (now + hour) = true.
Proof.
  intros Hs Ha Ht. unfold is_published. rewrite Hs, Ha, Ht.
  cbn [negb state_eqb]. unfold hour, second.
  split; [apply Z.leb_gt; lia | split; apply Z.leb_le; lia].
Qed.

Lemma scheduled_record_time_gate_witness :
  is_published scheduled 500 = false /\
  is_published scheduled (500 + hour + second) = true /\
  is_published scheduled (500 + hour) = true.
Proof.
  apply (scheduled_record_time_gate scheduled 500); reflexivity.
Defined.

(** C9: [get_video_id] returns the external identifier when the record is
    visible and nothing otherwise; whenever it returns an identifier, the
    record is visible at that clock reading. *)
Theorem get_video_id_only_when_published (r : Video) (now : datetime) :
  (is_published r now = true -> get_video_id r now = Some (video_id r)) /\
  (is_published r now = false -> get_video_id r now = None) /\
  (forall v, get_video_id r now = Some v ->
             v = video_id r /\ is_published r now = true).
Proof.
  unfold get_video_id. destruct (is_published r now); repeat split;
    try congruence; try discriminate.
Qed.

Lemma get_video_id_only_when_published_witness :
  get_video_id scheduled (500 + hour) = Some "yt-3" /\
  get_video_id scheduled 500 = None /\
  get_video_id taken_down 5000 = None.
Proof.
  split; [|split].
  - apply (proj1 (get_video_id_only_when_published scheduled (500 + hour))).
    reflexivity.
  - apply (proj1 (proj2 (get_video_id_only_when_published scheduled 500))).
    reflexivity.
  - apply (proj1 (proj2 (get_video_id_only_when_published taken_down 5000))).
    reflexivity.
Defined.

(** ** Validation and the write path *)

Lemma clean_raises_iff (r : Video) :
  clean r = Raise MissingPublishTimestamp <->
  state r = PUBLISH /\ publish_timestamp r = None.
Proof.
  unfold clean. destruct (state r), (publish_timestamp r); simpl;
    split; try discriminate; try tauto; intros [? ?]; discriminate.
Qed.

Lemma clean_outcomes (r : Video) (e : exn) :
  clean r = Raise e -> e = MissingPublishTimestamp.
Proof.
  unfold clean.
  destruct (state_eqb (state r) PUBLISH && negb (truthy (publish_timestamp r)));
    congruence.
Qed.

Lemma clean_ok_invariant (r : Video) :
  clean r = Ok tt <-> publish_invariant r.
Proof.
  unfold clean, publish_invariant.
  destruct (state r), (publish_timestamp r); simpl; split;
    try discriminate; try congruence; try reflexivity.
  intro H. exfalso. apply H; reflexivity.
Qed.

Lemma assignIfMissing_frame (r : Video) :
  pk (assignIfMissing r) = pk r /\
  title (assignIfMissing r) = title r /\
  description (assignIfMissing r) = description r /\
  video_id (assignIfMissing r) = video_id r /\
  active (assignIfMissing r) = active r /\
  created (assignIfMissing r) = created r /\
  updated (assignIfMissing r) = updated r /\
  state (assignIfMissing r) = state r /\
  publish_timestamp (assignIfMissing r) = publish_timestamp r.
Proof.
  unfold assignIfMissing. destruct (slug_missing (slug r)); simpl; tauto.
Qed.

Lemma pre_commit_raises (r : Video) (e : exn) :
  pre_commit r = Raise e <->
  e = MissingPublishTimestamp /\ state r = PUBLISH /\ publish_timestamp r = None.
Proof.
  unfold pre_commit.
  destruct (assignIfMissing_frame r) as (_ & _ & _ & _ & _ & _ & _ & Hs & Ht).
  destruct (clean (assignIfMissing r)) as [[]|e'] eqn:E.
  - split; [discriminate|]. intros (_ & H1 & H2).
    assert (C : clean (assignIfMissing r) = Raise MissingPublishTimestamp)
      by (apply clean_raises_iff; rewrite Hs, Ht; auto).
    congruence.
  - pose proof (clean_outcomes _ _ E) as ->.
    apply clean_raises_iff in E. rewrite Hs, Ht in E.
    split.
    + intro H. injection H as <-. tauto.
    + intros (-> & _). reflexivity.
Qed.

Lemma pre_commit_ok (r r' : Video) :
  pre_commit r = Ok r' -> r' = assignIfMissing r /\ publish_invariant r'.
Proof.
  unfold pre_commit. destruct (clean (assignIfMissing r)) as [[]|e] eqn:E.
  - intro H. injection H as <-. split; [reflexivity|].
    apply clean_ok_invariant. exact E.
  - discriminate.
Qed.

Lemma create_rejected_unchanged (now : datetime) (input : Video) (db : list Video) (e : exn) :
  snd (create now input db) = Raise e -> fst (create now input db) = db.
Proof.
  unfold create. destruct (pre_commit _) as [r|e']; [|reflexivity].
  destruct (unique_violation r db); [reflexivity | discriminate].
Qed.

Lemma update_rejected_unchanged (now : datetime) (id : Z) (p : Patch) (db : list Video) (e : exn) :
  snd (update now id p db) = Raise e -> fst (update now id p db) = db.
Proof.
  unfold update. destruct (find_row id db) as [old|]; [|reflexivity].
  destruct (pre_commit _) as [r|e']; [|reflexivity].
  destruct (unique_violation r db); [reflexivity | discriminate].
Qed.

Lemma unique_violation_not_validation (r : Video) (db : list Video) (e : exn) :
  unique_violation r db = Some e -> e <> MissingPublishTimestamp.
Proof.
  unfold unique_violation.
  destruct (existsb _ db); [intro H; injection H as <-; discriminate|].
  destruct (existsb _ db); [intro H; injection H as <-; discriminate|].
  discriminate.
Qed.

Lemma create_raises_missing (now : datetime) (input : Video) (db : list Video) :
  snd (create now input db) = Raise MissingPublishTimestamp <->
  state input = PUBLISH /\ publish_timestamp input = None.
Proof.
  unfold create.
  set (r0 := mkVideo _ _ _ _ _ _ _ _ _ _).
  pose proof (pre_commit_raises r0) as P. simpl in P.
  destruct (pre_commit r0) as [r|e] eqn:E.
  - destruct (unique_violation r db) as [e|] eqn:U; simpl.
    + apply unique_violation_not_validation in U. split.
      * intro H. congruence.
      * intro H. specialize (P MissingPublishTimestamp).
        destruct P as [_ P]. discriminate P. tauto.
    + split; [discriminate|]. intro H.
      specialize (P MissingPublishTimestamp).
      destruct P as [_ P]. discriminate P. tauto.
  - simpl. destruct (P e) as [P1 _]. destruct (P1 eq_refl) as (-> & Hs & Ht).
    tauto.
Qed.

Lemma update_raises_missing (now : datetime) (id : Z) (p : Patch) (db : list Video) (old : Video) :
  find_row id db = Some old ->
  (snd (update now id p db) = Raise MissingPublishTimestamp <->
   state (apply_patch now p old) = PUBLISH /\
   publish_timestamp (apply_patch now p old) = None).
Proof.
  intro F. unfold update. rewrite F.
  pose proof (pre_commit_raises (apply_patch now p old)) as P.
  destruct (pre_commit (apply_patch now p old)) as [r|e] eqn:E.
  - destruct (unique_violation r db) as [e|] eqn:U; simpl.
    + apply unique_violation_not_validation in U. split.
      * intro H. congruence.
      * intro H. specialize (P MissingPublishTimestamp).
        destruct P as [_ P]. discriminate P. tauto.
    + split; [discriminate|]. intro H.
      specialize (P MissingPublishTimestamp).
      destruct P as [_ P]. discriminate P. tauto.
  - simpl. destruct (P e) as [P1 _]. destruct (P1 eq_refl) as (-> & Hs & Ht).
    tauto.
Qed.

(** C3: [clean] raises the validation error exactly when the state is
    PUBLISH and the publish timestamp is absent, and raises nothing else;
    [create] and [update] fail with that error exactly in that case, and a
    write that fails leaves the table as it was. *)
Theorem validation_rejects_publish_without_timestamp (r : Video) :
  (clean r = Raise MissingPublishTimestamp <->
   state r = PUBLISH /\ publish_timestamp r = None) /\
  (forall e, clean r = Raise e -> e = MissingPublishTimestamp) /\
  (forall now db,
      (snd (create now r db) = Raise MissingPublishTimestamp <->
       state r = PUBLISH /\ publish_timestamp r = None) /\
      (forall e, snd (create now r db) = Raise e -> fst (create now r db) = db)) /\
  (forall now id p db,
      find_row id db = Some r ->
      (snd (update now id p db) = Raise MissingPublishTimestamp <->
       state (apply_patch now p r) = PUBLISH /\
       publish_timestamp (apply_patch now p r) = None) /\
      (forall e, snd (update now id p db) = Raise e -> fst (update now id p db) = db)).
Proof.
  split; [apply clean_raises_iff|].
  split; [apply clean_outcomes|].
  split.
  - intros now db. split; [apply create_raises_missing|].
    apply create_rejected_unchanged.
  - intros now id p db F. split; [apply update_raises_missing; exact F|].
    apply update_rejected_unchanged.
Qed.

Lemma validation_rejects_publish_without_timestamp_witness :
  clean unscheduled = Raise MissingPublishTimestamp /\
  create 1000 unscheduled library = (library, Raise MissingPublishTimestamp) /\
  update 1000 4 publish_patch library = (library, Raise MissingPublishTimestamp).
Proof.
  pose proof (validation_rejects_publish_without_timestamp unscheduled)
    as (Hclean & _ & Hcreate & _).
  pose proof (validation_rejects_publish_without_timestamp rough_cut)
    as (_ & _ & _ & Hupdate).
  split; [apply Hclean; split; reflexivity|].
  destruct (Hcreate 1000 library) as [Hc1 Hc2].
  destruct (Hupdate 1000 4 publish_patch library eq_refl) as [Hu1 Hu2].
  split.
  - rewrite (surjective_pairing (create 1000 unscheduled library)).
    assert (E : snd (create 1000 unscheduled library) = Raise MissingPublishTimestamp)
      by (apply Hc1; split; reflexivity).
    rewrite (Hc2 _ E), E. reflexivity.
  - rewrite (surjective_pairing (update 1000 4 publish_patch library)).
    assert (E : snd (update 1000 4 publish_patch library) = Raise MissingPublishTimestamp)
      by (apply Hu1; split; reflexivity).
    rewrite (Hu2 _ E), E. reflexivity.
Defined.

(** ** The stored invariant *)

Lemma create_preserves_invariant (now : datetime) (input : Video) (db : list Video) :
  Forall publish_invariant db -> Forall publish_invariant (fst (create now input db)).
Proof.
  intro H. unfold create.
  destruct (pre_commit _) as [r|e] eqn:E; [|exact H].
  destruct (unique_violation r db); [exact H|]. simpl.
  apply Forall_app. split; [exact H|].
  constructor; [|constructor]. apply pre_commit_ok in E. tauto.
Qed.

Lemma update_preserves_invariant (now : datetime) (id : Z) (p : Patch) (db : list Video) :
  Forall publish_invariant db -> Forall publish_invariant (fst (update now id p db)).
Proof.
  intro H. unfold update.
  destruct (find_row id db) as [old|]; [|exact H].
  destruct (pre_commit _) as [r|e] eqn:E; [|exact H].
  destruct (unique_violation r db); [exact H|]. simpl.
  apply pre_commit_ok in E. destruct E as [_ Hr].
  unfold replace_row. rewrite Forall_map.
  eapply Forall_impl; [|exact H].
  intros x Hx. destruct (pk x =? pk r); assumption.
Qed.

Lemma unpublish_fst (queryset : QuerySet) (db : list Video) :
  fst (unpublish_selected queryset db) =
  map (fun r => if qs_where queryset r then set_active false r else r) db.
Proof.
  unfold unpublish_selected, qs_update_active.
  destruct (load_global "messages"); reflexivity.
Qed.

Lemma unpublish_preserves_invariant (queryset : QuerySet) (db : list Video) :
  Forall publish_invariant db ->
  Forall publish_invariant (fst (unpublish_selected queryset db)).
Proof.
  intro H. rewrite unpublish_fst, Forall_map.
  eapply Forall_impl; [|exact H].
  intros x Hx. destruct (qs_where queryset x); [|exact Hx].
  exact Hx.
Qed.

Lemma step_preserves_invariant (db db' : list Video) :
  step db db' -> Forall publish_invariant db -> Forall publish_invariant db'.
Proof.
  intros [now input | now id p | queryset] H.
  - apply create_preserves_invariant, H.
  - apply update_preserves_invariant, H.
  - apply unpublish_preserves_invariant, H.
Qed.

(** C4: every table reachable from the empty one by [create], [update] and
    the bulk unpublish holds only rows whose state is PUBLISH only if their
    publish timestamp is present; each write from such a table leads to such
    a table again, and a write that raises commits nothing. *)
Theorem reachable_tables_keep_publish_invariant (db : list Video) :
  reachable db ->
  Forall publish_invariant db /\
  (forall db', step db db' -> Forall publish_invariant db') /\
  (forall now input e,
      snd (create now input db) = Raise e -> fst (create now input db) = db) /\
  (forall now id p e,
      snd (update now id p db) = Raise e -> fst (update now id p db) = db).
Proof.
  intro R.
  assert (I : Forall publish_invariant db).
  { induction R as [|db db' R IH S].
    - constructor.
    - eapply step_preserves_invariant; eassumption. }
  split; [exact I|]. split.
  - intros db' S. eapply step_preserves_invariant; eassumption.
  - split.
    + intros now input e. apply create_rejected_unchanged.
    + intros now id p e. apply update_rejected_unchanged.
Qed.

Lemma reachable_tables_keep_publish_invariant_witness :
  Forall publish_invariant (fst (create 1000 scheduled [])).
Proof.
  refine (proj1 (reachable_tables_keep_publish_invariant
                   (fst (create 1000 scheduled [])) _)).
  apply (reachable_step []); [apply reachable_empty | apply step_create].
Defined.

(** ** Bulk unpublish *)

(** What the UPDATE statement of the action does, for any queryset and
    table: selected rows end inactive with every other field as it was,
    the other rows are untouched, the count is the number of selected rows. *)
Lemma qs_update_active_effect (qs : QuerySet) (db : list Video) :
  snd (qs_update_active false qs db) = List.length (filter (qs_where qs) db) /\
  List.length (fst (qs_update_active false qs db)) = List.length db /\
  (forall r r', In (r, r') (combine db (fst (qs_update_active false qs db))) ->
     pk r' = pk r /\ title r' = title r /\ description r' = description r /\
     slug r' = slug r /\ video_id r' = video_id r /\ created r' = created r /\
     updated r' = updated r /\ state r' = state r /\
     publish_timestamp r' = publish_timestamp r /\
     active r' = (if qs_where qs r then false else active r)).
Proof.
  unfold qs_update_active. simpl.
  split; [reflexivity|]. split; [apply length_map|].
  induction db as [|x db IH]; simpl; [tauto|].
  intros r r' [E | H]; [|apply IH; exact H].
  injection E as <- <-. destruct (qs_where qs x); simpl; tauto.
Qed.

Lemma set_active_false_hidden (r : Video) (now : datetime) :
  is_published (set_active false r) now = false /\
  published_filter now (set_active false r) = false /\
  qs_where VideoPublishedProxyAdmin_get_queryset (set_active false r) = false /\
  qs_where (VideoManager_get_queryset VideoAllProxy) (set_active false r) = true.
Proof.
  unfold is_published, published_filter. simpl.
  rewrite !andb_false_r. repeat split.
Qed.

(** After the UPDATE, a selected row is in neither published listing and is
    still in the unfiltered listing of the All proxy. *)
Lemma qs_update_active_listings (nl : bool) (qs : QuerySet) (db : list Video)
      (now : datetime) (r : Video) :
  In r db -> qs_where qs r = true ->
  let db' := fst (qs_update_active false qs db) in
  ~ In (set_active false r) (evaluate nl db' VideoPublishedProxyAdmin_get_queryset) /\
  ~ In (set_active false r) (evaluate nl db' (VideoManager_published now Video_model)) /\
  In (set_active false r) (evaluate nl db' (VideoManager_get_queryset VideoAllProxy)) /\
  state (set_active false r) = state r.
Proof.
  intros Hin Hsel db'.
  destruct (set_active_false_hidden r now) as (_ & Hp & Ha & _).
  split; [|split; [|split]].
  - rewrite evaluate_In. intros [_ H]. congruence.
  - rewrite evaluate_In. simpl. intros [_ H]. congruence.
  - rewrite evaluate_In. split; [|reflexivity].
    unfold db', qs_update_active. simpl. apply in_map_iff.
    exists r. rewrite Hsel. auto.
  - reflexivity.
Qed.

(** C5 (defect): on three published rows the action's UPDATE deactivates
    the three rows and touches nothing else, but the call then raises
    [NameError] on the unbound global [messages] instead of reporting the
    count 3; it does so for every queryset and table. *)
Theorem unpublish_selected_raises_name_error :
  unpublish_selected (selected [1; 2; 3] VideoPublishedProxyAdmin_get_queryset) library =
    ([set_active false pilot; set_active false finale; set_active false special;
      rough_cut; premiere],
     Raise (NameError "messages")) /\
  (forall queryset db,
      snd (unpublish_selected queryset db) = Raise (NameError "messages") /\
      snd (unpublish_selected queryset db) <>
        Ok (unpublished_message (snd (qs_update_active false queryset db)))).
Proof.
  split; [reflexivity|].
  intros queryset db. unfold unpublish_selected.
  destruct (qs_update_active false queryset db) as [db' n]. simpl.
  split; [reflexivity | discriminate].
Qed.

(** ** The published-only admin listing *)

(** C6 (defect): the queryset of the published-only admin filters on
    [active] alone, so with the clock at 1000 it lists the draft and the
    record scheduled for 9000, neither of which is published; the model's
    own [get_queryset], which applies the published filter, is not a hook
    the admin calls and fails on its [super()] lookup. *)
Theorem published_admin_lists_unpublished_rows :
  evaluate false library VideoPublishedProxyAdmin_get_queryset =
    [premiere; finale; special; pilot; rough_cut] /\
  evaluate true library VideoPublishedProxyAdmin_get_queryset =
    [rough_cut; premiere; finale; special; pilot] /\
  published_filter 1000 rough_cut = false /\
  published_filter 1000 premiere = false /\
  is_published rough_cut 1000 = false /\
  is_published premiere 1000 = false /\
  evaluate false library (VideoManager_published 1000 VideoPublishedProxy) =
    [finale; special; pilot] /\
  VideoPublishedProxy_get_queryset 1000 = Raise (AttributeError "get_queryset").
Proof.
  repeat split.
Qed.

(** ** Ordering *)

Lemma null_compare_sym (nl : bool) (x y : option datetime) :
  null_compare nl y x = CompOpp (null_compare nl x y).
Proof.
  destruct x, y, nl; simpl; try reflexivity; apply Z.compare_antisym.
Qed.

Lemma null_compare_lt_trans (nl : bool) (x y z : option datetime) :
  null_compare nl x y = Lt -> null_compare nl y z = Lt -> null_compare nl x z = Lt.
Proof.
  destruct x, y, z, nl; simpl; try discriminate; try reflexivity.
  all: rewrite !Z.compare_lt_iff; lia.
Qed.

Lemma null_compare_eq (nl : bool) (x y : option datetime) :
  null_compare nl x y = Eq -> x = y.
Proof.
  destruct x, y, nl; simpl; try discriminate; try reflexivity.
  all: intro H; apply Z.compare_eq in H; congruence.
Qed.

Lemma column_comparator (nl : bool) (c : column) :
  comparator (fun r1 r2 => null_compare nl (column_value c r1) (column_value c r2)).
Proof.
  constructor.
  - intros a b. apply null_compare_sym.
  - intros a b d. apply null_compare_lt_trans.
  - intros a b d H. apply null_compare_eq in H. rewrite H. reflexivity.
Qed.

Lemma comparator_gt_trans (cmp : Video -> Video -> comparison) :
  comparator cmp ->
  forall a b c, cmp a b = Gt -> cmp b c = Gt -> cmp a c = Gt.
Proof.
  intros C a b c H1 H2.
  rewrite (cmp_sym _ C c a).
  rewrite (cmp_lt_trans _ C c b a); [reflexivity | |].
  - rewrite (cmp_sym _ C b c), H2. reflexivity.
  - rewrite (cmp_sym _ C a b), H1. reflexivity.
Qed.

Lemma comparator_eq_sym (cmp : Video -> Video -> comparison) :
  comparator cmp -> forall a b, cmp a b = Eq -> cmp b a = Eq.
Proof.
  intros C a b H. rewrite (cmp_sym _ C a b), H. reflexivity.
Qed.

Lemma opp_comparator (cmp : Video -> Video -> comparison) :
  comparator cmp -> comparator (fun a b => CompOpp (cmp a b)).
Proof.
  intro C. constructor.
  - intros a b. rewrite (cmp_sym _ C a b). reflexivity.
  - intros a b c H1 H2.
    apply (f_equal CompOpp) in H1, H2. rewrite CompOpp_involutive in H1, H2.
    simpl in H1, H2. rewrite (comparator_gt_trans _ C a b c H1 H2). reflexivity.
  - intros a b c H. apply (f_equal CompOpp) in H.
    rewrite CompOpp_involutive in H. simpl in H.
    rewrite (cmp_eq_compat _ C a b c H). reflexivity.
Qed.

Lemma term_comparator (nl : bool) (t : order_term) : comparator (term_compare nl t).
Proof.
  destruct t as [c|c]; simpl.
  - apply (column_comparator nl c).
  - apply (opp_comparator _ (column_comparator nl c)).
Qed.

Lemma ordering_comparator (nl : bool) (o : list order_term) :
  comparator (ordering_compare nl o).
Proof.
  induction o as [|t o IH].
  - constructor; simpl; intros; try reflexivity; discriminate.
  - pose proof (term_comparator nl t) as T. constructor; simpl.
    + intros a b. rewrite (cmp_sym _ T a b).
      destruct (term_compare nl t a b); simpl; trivial. apply (cmp_sym _ IH).
    + intros a b c.
      destruct (term_compare nl t a b) eqn:E1; try discriminate;
        destruct (term_compare nl t b c) eqn:E2; try discriminate.
      * rewrite (cmp_eq_compat _ T a b c E1), E2. apply (cmp_lt_trans _ IH).
      * rewrite (cmp_eq_compat _ T a b c E1), E2. trivial.
      * intros _ H2. apply (comparator_eq_sym _ T) in E2.
        rewrite (cmp_sym _ T c a), (cmp_eq_compat _ T c b a E2).
        rewrite (cmp_sym _ T a b), E1. reflexivity.
      * intros _ _. rewrite (cmp_lt_trans _ T a b c E1 E2). reflexivity.
    + intros a b c.
      destruct (term_compare nl t a b) eqn:E1; try discriminate.
      intro H. rewrite (cmp_eq_compat _ T a b c E1).
      destruct (term_compare nl t b c); trivial. apply (cmp_eq_compat _ IH), H.
Qed.

Section Sorting.
Variable nl : bool.
Variable o : list order_term.

Lemma precedes_total (a b : Video) :
  precedes nl o a b = false -> precedes nl o b a = true.
Proof.
  unfold precedes. rewrite (cmp_sym _ (ordering_comparator nl o) a b).
  destruct (ordering_compare nl o a b); simpl; congruence.
Qed.

Lemma precedes_trans (a b c : Video) :
  precedes nl o a b = true -> precedes nl o b c = true -> precedes nl o a c = true.
Proof.
  pose proof (ordering_comparator nl o) as C. unfold precedes.
  destruct (ordering_compare nl o a b) eqn:E1; try discriminate;
    destruct (ordering_compare nl o b c) eqn:E2; try discriminate; intros _ _.
  - rewrite (cmp_eq_compat _ C a b c E1), E2. reflexivity.
  - rewrite (cmp_eq_compat _ C a b c E1), E2. reflexivity.
  - apply (comparator_eq_sym _ C) in E2.
    rewrite (cmp_sym _ C c a), (cmp_eq_compat _ C c b a E2).
    rewrite (cmp_sym _ C a b), E1. reflexivity.
  - rewrite (cmp_lt_trans _ C a b c E1 E2). reflexivity.
Qed.

Lemma insert_row_sorted (r : Video) (l : list Video) :
  StronglySorted (ordered_before nl o) l -> StronglySorted (ordered_before nl o) (insert_row nl o r l).
Proof.
  induction l as [|x l IH]; simpl; intro S.
  - constructor; constructor.
  - apply StronglySorted_inv in S. destruct S as [S F].
    destruct (precedes nl o r x) eqn:E.
    + constructor; [constructor; assumption|].
      constructor; [exact E|].
      eapply Forall_impl; [|exact F].
      intros y Hy. eapply precedes_trans; eassumption.
    + constructor; [apply IH, S|].
      eapply Permutation_Forall; [apply insert_row_perm|].
      constructor; [apply precedes_total, E | exact F].
Qed.

Lemma sort_rows_sorted (l : list Video) :
  StronglySorted (ordered_before nl o) (sort_rows nl o l).
Proof.
  induction l as [|x l IH]; simpl.
  - constructor.
  - apply insert_row_sorted, IH.
Qed.

Lemma evaluate_sorted (db : list Video) (qs : QuerySet) :
  qs_ordering qs = o ->
  StronglySorted (ordered_before nl o) (evaluate nl db qs).
Proof.
  intro E. unfold evaluate. rewrite E. apply sort_rows_sorted.
Qed.
End Sorting.

Lemma StronglySorted_weaken (R R' : Video -> Video -> Prop) (l : list Video) :
  (forall a b, R a b -> R' a b) -> StronglySorted R l -> StronglySorted R' l.
Proof.
  intros W S. induction S as [|a l S IH F]; constructor; trivial.
  eapply Forall_impl; [|exact F]. intros b. apply W.
Qed.

Lemma filter_all (l : list Video) : filter (fun _ => true) l = l.
Proof. induction l as [|x l IH]; simpl; congruence. Qed.

Lemma precedes_default (nl : bool) (r1 r2 : Video) :
  precedes nl (Meta_ordering Video_model) r1 r2 = true <->
  timestamp_then_created_desc nl r1 r2.
Proof.
  unfold precedes, timestamp_then_created_desc. simpl.
  destruct (publish_timestamp r1) as [t1|], (publish_timestamp r2) as [t2|], nl;
    simpl; try (split; congruence).
  1,2: destruct (Z.compare_spec t1 t2); simpl;
       destruct (Z.compare_spec (created r1) (created r2)); simpl;
       split; try discriminate; try reflexivity; try lia; intro; lia.
  1,2: destruct (Z.compare_spec (created r1) (created r2)); simpl;
       split; try discriminate; try reflexivity; try lia; intro; lia.
Qed.

Lemma precedes_all_proxy (nl : bool) (r1 r2 : Video) :
  precedes nl (Meta_ordering VideoAllProxy) r1 r2 = true <-> created_desc r1 r2.
Proof.
  unfold precedes, created_desc. simpl.
  destruct (Z.compare_spec (created r1) (created r2)); simpl;
    split; try discriminate; try reflexivity; try lia; intro; lia.
Qed.

(** C10: the default queryset of the base model returns every row of the
    table, ordered by publish timestamp descending with ties broken by
    creation time descending; the All proxy orders by creation time
    descending instead, and on the sample table the two orders differ. *)
Theorem default_ordering_timestamp_then_created (nl : bool) (db : list Video) :
  Meta_ordering Video_model = [Desc col_publish_timestamp; Desc col_created] /\
  Permutation db (evaluate nl db (VideoManager_get_queryset Video_model)) /\
  StronglySorted (timestamp_then_created_desc nl)
                 (evaluate nl db (VideoManager_get_queryset Video_model)) /\
  StronglySorted created_desc
                 (evaluate nl db (VideoManager_get_queryset VideoAllProxy)) /\
  evaluate nl library (VideoManager_get_queryset Video_model) <>
  evaluate nl library (VideoManager_get_queryset VideoAllProxy).
Proof.
  split; [reflexivity|]. split; [|split; [|split]].
  - unfold evaluate. simpl. rewrite filter_all. apply sort_rows_perm.
  - eapply StronglySorted_weaken; [|apply evaluate_sorted; reflexivity].
    intros a b. apply precedes_default.
  - eapply StronglySorted_weaken; [|apply evaluate_sorted; reflexivity].
    intros a b. apply precedes_all_proxy.
  - destruct nl; vm_compute; discriminate.
Qed.

(** ** Slugs *)

Lemma normalise_slug_char (c : ascii) : slug_char (normalise c) = true.
Proof.
  destruct c as [[] [] [] [] [] [] [] []]; reflexivity.
Qed.

Lemma head_is_separator_collapse (l : list ascii) :
  head_is_separator (collapse l) = head_is_separator l.
Proof.
  induction l as [|c l IH]; [reflexivity|].
  destruct l as [|d l]; [reflexivity|].
  change (collapse (c :: d :: l))
    with (if is_separator c && is_separator d
          then collapse (d :: l) else c :: collapse (d :: l)).
  destruct (is_separator c) eqn:Ec; simpl andb.
  - destruct (is_separator d) eqn:Ed.
    + rewrite IH. simpl. congruence.
    + reflexivity.
  - reflexivity.
Qed.

Lemma collapse_no_run (l : list ascii) : no_separator_run (collapse l) = true.
Proof.
  induction l as [|c l IH]; [reflexivity|].
  destruct l as [|d l]; [simpl; rewrite andb_false_r; reflexivity|].
  change (collapse (c :: d :: l))
    with (if is_separator c && is_separator d
          then collapse (d :: l) else c :: collapse (d :: l)).
  destruct (is_separator c && is_separator d) eqn:E; [exact IH|].
  cbn [no_separator_run]. rewrite IH, head_is_separator_collapse.
  simpl head_is_separator. rewrite E. reflexivity.
Qed.

Lemma collapse_incl (l : list ascii) (c : ascii) : In c (collapse l) -> In c l.
Proof.
  induction l as [|x l IH]; [trivial|].
  destruct l as [|d l]; [trivial|].
  change (collapse (x :: d :: l))
    with (if is_separator x && is_separator d
          then collapse (d :: l) else x :: collapse (d :: l)).
  destruct (is_separator x && is_separator d).
  - intro H. right. apply IH, H.
  - intros [H | H]; [left; exact H | right; apply IH, H].
Qed.

Lemma trim_leading_suffix (l : list ascii) :
  exists p, l = p ++ trim_leading l.
Proof.
  induction l as [|c l [p IH]]; simpl.
  - exists []. reflexivity.
  - destruct (is_separator c).
    + exists (c :: p). simpl. congruence.
    + exists []. reflexivity.
Qed.

Lemma trim_leading_head (l : list ascii) :
  head_is_separator (trim_leading l) = false.
Proof.
  induction l as [|c l IH]; simpl; [reflexivity|].
  destruct (is_separator c) eqn:E; [exact IH | exact E].
Qed.

Lemma trim_trailing_prefix (l : list ascii) :
  exists q, l = trim_trailing l ++ q.
Proof.
  unfold trim_trailing. destruct (trim_leading_suffix (rev l)) as [p H].
  exists (rev p). rewrite <- rev_app_distr, <- H, rev_involutive. reflexivity.
Qed.

Lemma no_separator_run_app (a b : list ascii) :
  no_separator_run (a ++ b) = true ->
  no_separator_run a = true /\ no_separator_run b = true.
Proof.
  induction a as [|c a IH]; simpl; [auto|].
  rewrite !andb_true_iff. intros [H1 H2]. destruct (IH H2) as [Ha Hb].
  repeat split; trivial.
  destruct a; simpl in *; [rewrite andb_false_r; reflexivity | exact H1].
Qed.

Lemma head_is_separator_prefix (a b : list ascii) :
  head_is_separator (a ++ b) = false -> head_is_separator a = false.
Proof. destruct a; simpl; trivial. Qed.

Lemma slug_chars_safe (l : list ascii) :
  forallb slug_char (slug_chars l) = true /\
  no_separator_run (slug_chars l) = true /\
  head_is_separator (slug_chars l) = false /\
  head_is_separator (rev (slug_chars l)) = false.
Proof.
  unfold slug_chars.
  set (m := collapse (map normalise l)).
  destruct (trim_leading_suffix m) as [p Hp].
  destruct (trim_trailing_prefix (trim_leading m)) as [q Hq].
  split; [|split; [|split]].
  - apply forallb_forall. intros c Hc.
    assert (In c m) as Hm.
    { rewrite Hp. apply in_or_app. right. rewrite Hq. apply in_or_app. left. exact Hc. }
    apply collapse_incl, in_map_iff in Hm. destruct Hm as (c0 & <- & _).
    apply normalise_slug_char.
  - pose proof (collapse_no_run (map normalise l)) as N. fold m in N.
    rewrite Hp in N. apply no_separator_run_app in N. destruct N as [_ N].
    rewrite Hq in N. apply no_separator_run_app in N. tauto.
  - apply (head_is_separator_prefix _ q). rewrite <- Hq. apply trim_leading_head.
  - unfold trim_trailing. rewrite rev_involutive. apply trim_leading_head.
Qed.

Lemma slugify_url_safe (s : string) : url_safe (slugify s) = true.
Proof.
  unfold url_safe, slugify. rewrite list_ascii_of_string_of_list_ascii.
  destruct (slug_chars_safe (list_ascii_of_string s)) as (H1 & H2 & H3 & H4).
  rewrite H1, H2, H3, H4. reflexivity.
Qed.

Lemma slug_missing_true (s : option string) :
  slug_missing s = true <-> s = None \/ s = Some "".
Proof.
  destruct s as [[|c s]|]; simpl; split; auto; try discriminate.
  intros [H | H]; discriminate.
Qed.

Lemma assignIfMissing_idempotent (r : Video) :
  assignIfMissing (assignIfMissing r) = assignIfMissing r.
Proof.
  unfold assignIfMissing at 2 3.
  destruct (slug_missing (slug r)) eqn:E.
  - unfold assignIfMissing. cbn [slug set_slug title].
    destruct (slug_missing (Some (slugify (title r)))); reflexivity.
  - unfold assignIfMissing. rewrite E. reflexivity.
Qed.

(** C8: when the slug of a record is null or empty, [assignIfMissing] sets
    it to the token derived from the title and changes nothing else, and
    that token is URL-safe (lowercase letters, digits and single separators,
    none at either end); when the slug is set, the record is returned as it
    is; applying [assignIfMissing] twice gives what applying it once
    gives. *)
Theorem assignIfMissing_derives_when_missing (r : Video) :
  (slug r = None \/ slug r = Some "" ->
   assignIfMissing r = set_slug (Some (slugify (title r))) r) /\
  (forall s, slug r = Some s -> s <> "" -> assignIfMissing r = r) /\
  url_safe (slugify (title r)) = true /\
  assignIfMissing (assignIfMissing r) = assignIfMissing r.
Proof.
  split; [|split; [|split]].
  - intro H. apply slug_missing_true in H. unfold assignIfMissing.
    rewrite H. reflexivity.
  - intros s Hs Hne. unfold assignIfMissing. rewrite Hs.
    destruct s; [congruence | reflexivity].
  - apply slugify_url_safe.
  - apply assignIfMissing_idempotent.
Qed.

Lemma assignIfMissing_derives_when_missing_witness :
  slug (assignIfMissing unscheduled) = Some "hello-world-2024" /\
  assignIfMissing pilot = pilot.
Proof.
  destruct (assignIfMissing_derives_when_missing unscheduled) as (Hset & _).
  destruct (assignIfMissing_derives_when_missing pilot) as (_ & Hkeep & _).
  split.
  - rewrite (Hset (or_introl eq_refl)). reflexivity.
  - apply (Hkeep "pilot"); [reflexivity | discriminate].
Defined.

(** * Further properties of the code *)

(** ** Visibility over time *)

Lemma published_filter_is_published (r : Video) (now : datetime) :
  published_filter now r = is_published r now.
Proof.
  unfold published_filter, is_published, lookup_lte.
  destruct (active r), (state r), (publish_timestamp r); simpl;
    rewrite ?andb_true_r, ?andb_false_r; reflexivity.
Qed.

Lemma published_rows (nl : bool) (db : list Video) (m : model_class)
      (now : datetime) (r : Video) :
  In r (evaluate nl db (VideoManager_published now m)) <->
  In r db /\ is_published r now = true.
Proof.
  rewrite evaluate_In. simpl. rewrite published_filter_is_published. tauto.
Qed.

(** X1: visibility is monotone in the clock: a record that [is_published]
    at one reading is published at every later reading, keeps handing out
    its video id, and stays in [objects.published()] of an unchanged
    table. *)
Theorem visibility_monotone_in_clock (r : Video) (now later : datetime) :
  now <= later ->
  is_published r now = true ->
  is_published r later = true /\
  get_video_id r later = get_video_id r now /\
  (forall nl db m,
      In r (evaluate nl db (VideoManager_published now m)) ->
      In r (evaluate nl db (VideoManager_published later m))).
Proof.
  intros Hle Hp.
  assert (Hl : is_published r later = true).
  { apply is_published_true in Hp. destruct Hp as (Ha & Hs & t & Ht & Htn).
    apply is_published_true. repeat split; trivial.
    exists t. split; [exact Ht | lia]. }
  split; [exact Hl|]. split.
  - unfold get_video_id. rewrite Hp, Hl. reflexivity.
  - intros nl db m. rewrite !published_rows. tauto.
Qed.

Lemma visibility_monotone_in_clock_witness :
  is_published pilot 5000 = true /\
  get_video_id pilot 5000 = get_video_id pilot 1000.
Proof.
  destruct (visibility_monotone_in_clock pilot 1000 5000) as (H1 & H2 & _);
    [lia | reflexivity |].
  split; assumption.
Defined.

(** ** Composing the filters *)

Lemma evaluate_ext (nl : bool) (db : list Video) (q1 q2 : QuerySet) :
  (forall r, qs_where q1 r = qs_where q2 r) ->
  qs_ordering q1 = qs_ordering q2 ->
  evaluate nl db q1 = evaluate nl db q2.
Proof.
  intros Hw Ho. unfold evaluate. rewrite Ho. f_equal.
  apply filter_ext. exact Hw.
Qed.

(** X2: [published] is idempotent and commutes with other filters: on any
    queryset, applying it twice with the same clock reading selects what
    applying it once selects, and filtering before or after it gives the
    same rows in the same order. *)
Theorem published_idempotent_and_commutes (nl : bool) (db : list Video)
        (now : datetime) (qs : QuerySet) (p : Video -> bool) :
  evaluate nl db (VideoQuerySet_published now (VideoQuerySet_published now qs)) =
  evaluate nl db (VideoQuerySet_published now qs) /\
  evaluate nl db (VideoQuerySet_published now (qs_filter p qs)) =
  evaluate nl db (qs_filter p (VideoQuerySet_published now qs)).
Proof.
  split; apply evaluate_ext; try reflexivity; intro r; simpl.
  - destruct (qs_where qs r), (published_filter now r); reflexivity.
  - destruct (qs_where qs r), (published_filter now r), (p r); reflexivity.
Qed.

(** X3: the queryset of the published-only admin lists a row of the table
    exactly when the row is active, whatever its state and timestamp; it
    therefore lists every row [objects.published()] returns, and applying
    [published] to it gives exactly the rows and order of
    [objects.published()] on the proxy. *)
Theorem published_admin_lists_active_rows (nl : bool) (db : list Video)
        (now : datetime) (r : Video) :
  (In r (evaluate nl db VideoPublishedProxyAdmin_get_queryset) <->
   In r db /\ active r = true) /\
  (In r (evaluate nl db (VideoManager_published now VideoPublishedProxy)) ->
   In r (evaluate nl db VideoPublishedProxyAdmin_get_queryset)) /\
  evaluate nl db (VideoQuerySet_published now VideoPublishedProxyAdmin_get_queryset) =
  evaluate nl db (VideoManager_published now VideoPublishedProxy).
Proof.
  assert (A : In r (evaluate nl db VideoPublishedProxyAdmin_get_queryset) <->
              In r db /\ active r = true).
  { rewrite evaluate_In. simpl. rewrite eqb_true_iff. tauto. }
  split; [exact A|]. split.
  - rewrite published_rows, A. intros [Hin Hp].
    apply is_published_true in Hp. tauto.
  - apply evaluate_ext; [|reflexivity]. intro x. simpl.
    unfold published_filter.
    destruct (active x), (state_eqb (state x) PUBLISH),
      (lookup_lte (publish_timestamp x) now); reflexivity.
Qed.

Lemma published_admin_lists_active_rows_witness :
  In finale (evaluate false library VideoPublishedProxyAdmin_get_queryset).
Proof.
  apply (proj1 (proj2 (published_admin_lists_active_rows false library 1000 finale))).
  apply published_rows. split; [|reflexivity].
  right; left; reflexivity.
Defined.

(** ** Unpublishing twice *)

Lemma selected_admin_inactive (ids : list Z) (r : Video) :
  active r = false ->
  qs_where (selected ids VideoPublishedProxyAdmin_get_queryset) r = false.
Proof. intro H. simpl. rewrite H. reflexivity. Qed.

Lemma filter_none (f : Video -> bool) (l : list Video) :
  (forall x, In x l -> f x = false) -> filter f l = [].
Proof.
  induction l as [|x l IH]; simpl; intro H; [reflexivity|].
  rewrite (H x (or_introl eq_refl)). apply IH. intros y Hy. apply H. right. exact Hy.
Qed.

(** X4: the bulk update of [unpublish_selected] is idempotent on the table,
    for any queryset; on a queryset of the published-only admin, which
    selects active rows only, a second update right after the first matches
    no row at all; and the count of an update never exceeds the size of the
    table. *)
Theorem unpublish_twice (queryset : QuerySet) (ids : list Z) (db : list Video) :
  fst (unpublish_selected queryset (fst (unpublish_selected queryset db))) =
  fst (unpublish_selected queryset db) /\
  snd (qs_update_active false (selected ids VideoPublishedProxyAdmin_get_queryset)
         (fst (unpublish_selected
                 (selected ids VideoPublishedProxyAdmin_get_queryset) db))) = 0%nat /\
  (snd (qs_update_active false queryset db) <= List.length db)%nat.
Proof.
  split; [|split].
  - rewrite !unpublish_fst, map_map. apply map_ext. intro r.
    destruct (qs_where queryset r) eqn:E.
    + destruct (qs_where queryset (set_active false r)); reflexivity.
    + rewrite E. reflexivity.
  - rewrite unpublish_fst. cbn [qs_update_active snd].
    rewrite filter_none; [reflexivity|].
    intros x Hx. apply in_map_iff in Hx. destruct Hx as (r & <- & _).
    destruct (qs_where (selected ids VideoPublishedProxyAdmin_get_queryset) r) eqn:E.
    + apply selected_admin_inactive. reflexivity.
    + exact E.
  - cbn [qs_update_active snd]. apply filter_length_le.
Qed.

(** ** The published listing and the backend *)

Lemma keys_present_tail (t : order_term) (o : list order_term) (r : Video) :
  keys_present (t :: o) r -> keys_present o r.
Proof.
  intros H c [Hc | Hc]; apply H; [left | right]; right; exact Hc.
Qed.

Lemma term_compare_backend (t : order_term) (o : list order_term) (a b : Video) :
  keys_present (t :: o) a -> keys_present (t :: o) b ->
  term_compare true t a b = term_compare false t a b.
Proof.
  intros Ha Hb. destruct t as [c|c]; simpl.
  - assert (Ka : column_value c a <> None) by (apply Ha; left; left; reflexivity).
    assert (Kb : column_value c b <> None) by (apply Hb; left; left; reflexivity).
    destruct (column_value c a), (column_value c b); simpl; congruence.
  - assert (Ka : column_value c a <> None) by (apply Ha; right; left; reflexivity).
    assert (Kb : column_value c b <> None) by (apply Hb; right; left; reflexivity).
    destruct (column_value c a), (column_value c b); simpl; congruence.
Qed.

Lemma ordering_compare_backend (o : list order_term) (a b : Video) :
  keys_present o a -> keys_present o b ->
  ordering_compare true o a b = ordering_compare false o a b.
Proof.
  induction o as [|t o IH]; intros Ha Hb; [reflexivity|]. simpl.
  rewrite (term_compare_backend t o a b Ha Hb).
  destruct (term_compare false t a b); trivial.
  apply IH; eapply keys_present_tail; eassumption.
Qed.

Lemma insert_row_backend (o : list order_term) (r : Video) (l : list Video) :
  keys_present o r -> Forall (keys_present o) l ->
  insert_row true o r l = insert_row false o r l.
Proof.
  intros Hr Hl. induction Hl as [|x l Hx Hl IH]; [reflexivity|]. simpl.
  unfold precedes. rewrite (ordering_compare_backend o r x Hr Hx).
  destruct (ordering_compare false o r x); rewrite ?IH; reflexivity.
Qed.

Lemma sort_rows_backend (o : list order_term) (l : list Video) :
  Forall (keys_present o) l -> sort_rows true o l = sort_rows false o l.
Proof.
  induction 1 as [|x l Hx Hl IH]; [reflexivity|]. simpl. rewrite IH.
  apply insert_row_backend; [exact Hx|].
  eapply Permutation_Forall; [apply sort_rows_perm | exact Hl].
Qed.

Lemma published_keys_present (o : list order_term) (now : datetime) (r : Video) :
  published_filter now r = true -> keys_present o r.
Proof.
  intros H c _. apply published_filter_true in H.
  destruct H as (_ & (t & Ht & _) & _).
  destruct c; simpl; congruence.
Qed.

Lemma StronglySorted_weaken_on (P : Video -> Prop) (R R' : Video -> Video -> Prop)
      (l : list Video) :
  Forall P l ->
  (forall a b, P a -> P b -> R a b -> R' a b) ->
  StronglySorted R l -> StronglySorted R' l.
Proof.
  intros HP W S. induction S as [|a l S IH F]; [constructor|].
  apply Forall_cons_iff in HP. destruct HP as [Pa Pl].
  constructor; [apply IH, Pl|].
  rewrite Forall_forall in *. intros b Hb. apply W; auto.
Qed.

Lemma precedes_newest_first (nl : bool) (o : list order_term) (a b : Video) :
  publish_timestamp a <> None -> publish_timestamp b <> None ->
  precedes nl (Desc col_publish_timestamp :: o) a b = true -> newest_first a b.
Proof.
  unfold precedes, newest_first. simpl.
  destruct (publish_timestamp a) as [ta|], (publish_timestamp b) as [tb|];
    try congruence.
  intros _ _. simpl.
  destruct (Z.compare_spec ta tb) as [E|E|E]; simpl; intro P;
    try lia; discriminate P.
Qed.

(** X5: the rows [objects.published()] returns come in the same order on
    every backend, since each has a publish timestamp (where NULL sorts
    plays no part); under the orderings of [Video] and of the published
    proxy they come newest first. *)
Theorem published_listing_newest_first (nl : bool) (db : list Video) (now : datetime) :
  (forall m, evaluate true db (VideoManager_published now m) =
             evaluate false db (VideoManager_published now m)) /\
  StronglySorted newest_first
    (evaluate nl db (VideoManager_published now VideoPublishedProxy)) /\
  StronglySorted newest_first
    (evaluate nl db (VideoManager_published now Video_model)).
Proof.
  assert (K : forall m r, In r (evaluate nl db (VideoManager_published now m)) ->
                          publish_timestamp r <> None).
  { intros m r Hr. apply published_rows in Hr. destruct Hr as [_ Hp].
    apply is_published_true in Hp. destruct Hp as (_ & _ & t & Ht & _). congruence. }
  split; [|split].
  - intro m. unfold evaluate. apply sort_rows_backend.
    apply Forall_forall. intros r Hr. apply filter_In in Hr.
    destruct Hr as [_ Hr]. simpl in Hr.
    eapply published_keys_present. exact Hr.
  - apply (StronglySorted_weaken_on
             (fun r => publish_timestamp r <> None)
             (ordered_before nl (Meta_ordering VideoPublishedProxy))).
    + apply Forall_forall. apply (K VideoPublishedProxy).
    + intros a b Ha Hb. apply precedes_newest_first; assumption.
    + apply evaluate_sorted. reflexivity.
  - apply (StronglySorted_weaken_on
             (fun r => publish_timestamp r <> None)
             (ordered_before nl (Meta_ordering Video_model))).
    + apply Forall_forall. apply (K Video_model).
    + intros a b Ha Hb. apply precedes_newest_first; assumption.
    + apply evaluate_sorted. reflexivity.
Qed.

(** ** Playlists of a video *)

(** X6: [get_playlist_ids] returns exactly the identifiers of the playlists
    that reference the video, one per reference and in the order of the
    relation; it is empty exactly when no playlist references the video. *)
Theorem get_playlist_ids_exact (self : Video) (playlists : list PlaylistLink) (id : Z) :
  (In id (get_playlist_ids self playlists) <->
   exists p, In p playlists /\ featured_video p = pk self /\ playlist_id p = id) /\
  (get_playlist_ids self playlists = [] <->
   forall p, In p playlists -> featured_video p <> pk self) /\
  (forall more, get_playlist_ids self (playlists ++ more) =
                get_playlist_ids self playlists ++ get_playlist_ids self more).
Proof.
  unfold get_playlist_ids. split; [|split].
  - rewrite in_map_iff. split.
    + intros (p & Hid & Hp). apply filter_In in Hp. destruct Hp as [Hin Hv].
      exists p. rewrite Z.eqb_eq in Hv. auto.
    + intros (p & Hin & Hv & Hid). exists p. split; [exact Hid|].
      apply filter_In. split; [exact Hin|]. apply Z.eqb_eq, Hv.
  - induction playlists as [|p l IH]; simpl.
    + split; [intros _ p [] | reflexivity].
    + destruct (featured_video p =? pk self) eqn:E; simpl.
      * split; [discriminate|]. intro H. exfalso.
        apply (H p (or_introl eq_refl)). apply Z.eqb_eq, E.
      * rewrite IH. split.
        -- intros H q [<- | Hq]; [apply Z.eqb_neq, E | apply H, Hq].
        -- intros H q Hq. apply H. right. exact Hq.
  - intro more. rewrite filter_app, map_app. reflexivity.
Qed.

(** X7: [playlist_links] returns the dash exactly when no playlist
    references the video; for a video in at least one playlist it raises
    [AttributeError] on [split] and never returns links. *)
Theorem playlist_links_outcome (obj : Video) (playlists : list PlaylistLink) :
  (playlist_links obj playlists = Ok "-" <->
   forall p, In p playlists -> featured_video p <> pk obj) /\
  (playlist_links obj playlists = Raise (AttributeError "split") <->
   exists p, In p playlists /\ featured_video p = pk obj) /\
  (forall html, playlist_links obj playlists = Ok html -> html = "-").
Proof.
  destruct (get_playlist_ids_exact obj playlists 0) as (_ & Hempty & _).
  unfold playlist_links.
  destruct (get_playlist_ids obj playlists) as [|id ids] eqn:E.
  - split; [|split].
    + split; [intros _; apply Hempty; reflexivity | reflexivity].
    + split; [discriminate|]. intros (p & Hin & Hv). exfalso.
      exact (proj1 Hempty eq_refl p Hin Hv).
    + intros html H. congruence.
  - simpl. split; [|split].
    + split; [discriminate|]. intro H. apply Hempty in H. discriminate.
    + split; [|reflexivity]. intros _.
      destruct (get_playlist_ids_exact obj playlists id) as (Hin & _ & _).
      rewrite E in Hin. destruct (proj1 Hin (or_introl eq_refl)) as (p & Hp & Hv & _).
      exists p. auto.
    + discriminate.
Qed.

Lemma playlist_links_outcome_witness :
  playlist_links pilot [mkPlaylistLink 4 1; mkPlaylistLink 6 2] =
    Raise (AttributeError "split") /\
  playlist_links premiere [mkPlaylistLink 4 1; mkPlaylistLink 6 2] = Ok "-".
Proof.
  split.
  - apply (proj1 (proj2 (playlist_links_outcome pilot _))).
    exists (mkPlaylistLink 4 1). split; [left; reflexivity | reflexivity].
  - apply (proj1 (playlist_links_outcome premiere _)).
    intros p [<- | [<- | []]]; simpl; discriminate.
Defined.

(** ** The status badge *)

(** X8: [display_published_status] shows the green badge exactly for the
    records [is_published] accepts, that is for the rows
    [objects.published()] returns, and the red badge for all others; a
    draft and a record whose kill-switch is off always show the red one. *)
Theorem status_badge_follows_visibility (obj : Video) (now : datetime) :
  (display_published_status obj now = published_badge <-> is_published obj now = true) /\
  (display_published_status obj now = draft_badge <-> is_published obj now = false) /\
  (forall nl db m,
      In obj db ->
      (In obj (evaluate nl db (VideoManager_published now m)) <->
       display_published_status obj now = published_badge)) /\
  (state obj = DRAFT \/ active obj = false ->
   display_published_status obj now = draft_badge).
Proof.
  assert (D : published_badge <> draft_badge)
    by (apply String.eqb_neq; reflexivity).
  assert (G : display_published_status obj now = published_badge <->
              is_published obj now = true).
  { unfold display_published_status, format_html.
    destruct (is_published obj now); split; congruence. }
  assert (R : display_published_status obj now = draft_badge <->
              is_published obj now = false).
  { unfold display_published_status, format_html.
    destruct (is_published obj now); split; congruence. }
  split; [exact G|]. split; [exact R|]. split.
  - intros nl db m Hin. rewrite published_rows, G. tauto.
  - intro H. apply R. unfold is_published.
    destruct H as [-> | ->]; [destruct (active obj)|]; reflexivity.
Qed.

Lemma status_badge_follows_visibility_witness :
  display_published_status rough_cut 1000 = draft_badge /\
  display_published_status taken_down 5000 = draft_badge.
Proof.
  split.
  - apply (proj2 (proj2 (proj2 (status_badge_follows_visibility rough_cut 1000)))).
    left. reflexivity.
  - apply (proj2 (proj2 (proj2 (status_badge_follows_visibility taken_down 5000)))).
    right. reflexivity.
Defined.

(** ** The label of a video *)

Lemma string_length_append (a b : string) :
  String.length (a ++ b) = (String.length a + String.length b)%nat.
Proof. induction a as [|c a IH]; simpl; congruence. Qed.

Lemma append_same_length (x y s t : string) :
  String.length x = String.length y ->
  (x ++ s)%string = (y ++ t)%string -> x = y /\ s = t.
Proof.
  revert y. induction x as [|c x IH]; intros [|d y]; simpl; try discriminate.
  - auto.
  - intros L E. injection L as L. injection E as -> E.
    destruct (IH y L E) as [-> ->]. auto.
Qed.

(** X9: the label [__str__] gives is the title, a space and the video id in
    parentheses; two records with the same label have the same title
    exactly when they have the same video id, so among equally titled
    records the label tells the video ids apart. *)
Theorem Video_str_tells_apart (a b : Video) :
  String.length (Video_str a) =
    (String.length (title a) + String.length (video_id a) + 3)%nat /\
  (Video_str a = Video_str b -> (title a = title b <-> video_id a = video_id b)).
Proof.
  unfold Video_str. split.
  - rewrite !string_length_append. simpl. lia.
  - intro E. split; intro H.
    + rewrite H in E.
      apply (append_same_length (title b) (title b)) in E; [|reflexivity].
      destruct E as [_ E]. simpl in E. injection E as E.
      assert (L : String.length (video_id a) = String.length (video_id b)).
      { apply (f_equal String.length) in E.
        rewrite !string_length_append in E. simpl in E. lia. }
      apply (append_same_length _ _ _ _ L E).
    + rewrite H in E.
      assert (L : String.length (title a) = String.length (title b)).
      { apply (f_equal String.length) in E.
        rewrite !string_length_append in E. lia. }
      apply (append_same_length _ _ _ _ L E).
Qed.

Lemma Video_str_tells_apart_witness :
  title pilot = title pilot <-> video_id pilot = video_id pilot.
Proof.
  apply (proj2 (Video_str_tells_apart pilot pilot)). reflexivity.
Defined.

(** ** The command-line entry point *)

Lemma environ_get_app (k k' v : string) (env : environ) :
  environ_get k (env ++ [(k', v)]) =
  match environ_get k env with
  | Some x => Some x
  | None => if String.eqb k' k then Some v else None
  end.
Proof.
  induction env as [|[k0 v0] env IH]; simpl; [reflexivity|].
  destruct (String.eqb k0 k); [reflexivity | exact IH].
Qed.

(** X10: [main] leaves the settings module always set: a value already in
    the environment is kept and the environment is returned as it was,
    otherwise the name is bound to [djangoflix.settings]; no other variable
    changes, and the command runs in that environment. *)
Theorem main_sets_settings_module_once (importable : bool)
        (execute : environ -> list string -> outcome)
        (env : environ) (argv : list string) :
  let env' := fst (main importable execute env argv) in
  environ_get "DJANGO_SETTINGS_MODULE" env' =
    Some (match environ_get "DJANGO_SETTINGS_MODULE" env with
          | Some v => v
          | None => "djangoflix.settings"
          end) /\
  (environ_get "DJANGO_SETTINGS_MODULE" env <> None -> env' = env) /\
  (forall k, k <> "DJANGO_SETTINGS_MODULE" -> environ_get k env' = environ_get k env) /\
  (importable = true -> snd (main importable execute env argv) = execute env' argv).
Proof.
  assert (E : fst (main importable execute env argv) =
              environ_setdefault "DJANGO_SETTINGS_MODULE" "djangoflix.settings" env)
    by (unfold main; destruct importable; reflexivity).
  cbv zeta. rewrite E. unfold environ_setdefault.
  destruct (environ_get "DJANGO_SETTINGS_MODULE" env) as [v|] eqn:G.
  - repeat split; trivial.
    intros ->. unfold main, environ_setdefault. rewrite G. reflexivity.
  - split; [|split; [|split]].
    + rewrite environ_get_app, G, String.eqb_refl. reflexivity.
    + congruence.
    + intros k Hk. rewrite environ_get_app.
      destruct (environ_get k env); [reflexivity|].
      apply not_eq_sym, String.eqb_neq in Hk. rewrite Hk. reflexivity.
    + intros ->. unfold main, environ_setdefault. rewrite G. reflexivity.
Qed.

Lemma main_sets_settings_module_once_witness :
  fst (main true (fun _ _ => Returns)
            [("DJANGO_SETTINGS_MODULE", "local.settings")] ["manage.py"]) =
  [("DJANGO_SETTINGS_MODULE", "local.settings")].
Proof.
  apply (proj1 (proj2 (main_sets_settings_module_once true (fun _ _ => Returns)
                         [("DJANGO_SETTINGS_MODULE", "local.settings")]
                         ["manage.py"]))).
  discriminate.
Defined.

(** X11: the exit status of the script: 0 exactly when Django imports and
    the command returns or exits with 0; an exception of the command, or a
    missing Django, ends in status 1 with one line [Error: ...] on the
    error stream, the line for a missing Django being the import message;
    a [SystemExit] of the command keeps its status and prints nothing. *)
Theorem run_script_exit_status (importable : bool)
        (execute : environ -> list string -> outcome)
        (env : environ) (argv : list string) :
  let env' := environ_setdefault "DJANGO_SETTINGS_MODULE" "djangoflix.settings" env in
  let status := snd (run_script importable execute env argv) in
  let err := snd (fst (run_script importable execute env argv)) in
  (status = 0 <->
   importable = true /\
   (execute env' argv = Returns \/ execute env' argv = Raises (Exit 0))) /\
  (importable = false ->
   status = 1 /\ err = ("Error: " ++ import_error_message ++ newline)%string) /\
  (forall message,
      importable = true -> execute env' argv = Raises (Exc message) ->
      status = 1 /\ err = ("Error: " ++ message ++ newline)%string) /\
  (forall code,
      importable = true -> execute env' argv = Raises (Exit code) ->
      status = code /\ err = EmptyString).
Proof.
  cbv zeta. unfold run_script, main.
  destruct importable.
  - destruct (execute _ argv) as [|[message|code]] eqn:E; simpl.
    + repeat split; auto; try discriminate.
    + split; [|split; [|split]].
      * split; [discriminate|]. intros [_ [H | H]]; discriminate.
      * discriminate.
      * intros m _ H. injection H as <-. auto.
      * discriminate.
    + split; [|split; [|split]].
      * split.
        -- intros ->. auto.
        -- intros [_ [H | H]]; [discriminate | congruence].
      * discriminate.
      * discriminate.
      * intros c _ H. injection H as <-. auto.
  - simpl. split; [|split; [|split]].
    + split; [discriminate | intros [H _]; discriminate].
    + auto.
    + discriminate.
    + discriminate.
Qed.

Lemma run_script_exit_status_witness :
  snd (run_script false (fun _ _ => Returns) [] ["manage.py"; "check"]) = 1 /\
  snd (run_script true (fun _ _ => Raises (Exit 2)) [] ["manage.py"; "check"]) = 2.
Proof.
  split.
  - apply (proj1 (proj2 (run_script_exit_status false (fun _ _ => Returns) []
                           ["manage.py"; "check"]))).
    reflexivity.
  - apply (proj2 (proj2 (proj2 (run_script_exit_status true
             (fun _ _ => Raises (Exit 2)) [] ["manage.py"; "check"]))) 2);
      reflexivity.
Defined.

(** ** Display identifiers *)

Lemma string_of_uint_length (u : Decimal.uint) :
  String.length (NilEmpty.string_of_uint u) = Decimal.nb_digits u.
Proof. induction u; simpl; congruence. Qed.

Lemma zeros_length (k : nat) : String.length (zeros k) = k.
Proof. induction k; simpl; congruence. Qed.

Lemma zero_fill_length (width : nat) (digits : string) :
  String.length (zero_fill width digits) = Nat.max width (String.length digits).
Proof.
  unfold zero_fill. rewrite string_length_append, zeros_length. lia.
Qed.

Lemma uint_of_string_zeros (k : nat) (s : string) :
  NilEmpty.uint_of_string (zeros k ++ s) =
  option_map (Nat.iter k Decimal.D0) (NilEmpty.uint_of_string s).
Proof.
  induction k as [|k IH]; simpl.
  - destruct (NilEmpty.uint_of_string s); reflexivity.
  - rewrite IH. destruct (NilEmpty.uint_of_string s); reflexivity.
Qed.

Lemma of_uint_zeros (k : nat) (u : Decimal.uint) :
  N.of_uint (Nat.iter k Decimal.D0 u) = N.of_uint u.
Proof. induction k as [|k IH]; simpl; [reflexivity | exact IH]. Qed.

Lemma decimal_nonempty (n : N) : decimal n <> EmptyString.
Proof.
  unfold decimal. intro H. apply (f_equal String.length) in H.
  rewrite string_of_uint_length in H. simpl in H.
  apply DecimalFacts.nb_digits_0 in H.
  destruct n as [|q]; simpl in H; [discriminate|].
  exact (DecimalPos.Unsigned.to_uint_nonnil q H).
Qed.

Lemma digits_value_zero_fill (width : nat) (n : N) :
  digits_value (zero_fill width (decimal n)) = Some n.
Proof.
  assert (V : option_map N.of_uint
                (NilEmpty.uint_of_string (zero_fill width (decimal n))) = Some n).
  { unfold zero_fill, decimal. rewrite uint_of_string_zeros, NilEmpty.usu. simpl.
    rewrite of_uint_zeros, DecimalN.Unsigned.of_to. reflexivity. }
  unfold digits_value. destruct (zero_fill width (decimal n)) eqn:E; [|exact V].
  exfalso. apply (f_equal String.length) in E.
  rewrite zero_fill_length in E. simpl in E.
  pose proof (decimal_nonempty n) as D.
  destruct (decimal n); [congruence | simpl in E; lia].
Qed.

Lemma parse_signed_unsigned (s : string) (n : N) :
  digits_value s = Some n -> parse_signed s = Some (Z.of_N n).
Proof.
  intro H. destruct s as [|c s]; [discriminate|].
  destruct c as [[] [] [] [] [] [] [] []];
    try (unfold parse_signed; rewrite H; reflexivity).
  exfalso. unfold digits_value in H. simpl in H.
  destruct (NilEmpty.uint_of_string s); discriminate.
Qed.

Lemma parse_display_id_round_trip (obj : Video) :
  parse_display_id (display_id obj) = Some (pk obj).
Proof.
  unfold display_id, format_08d.
  change (parse_display_id ("VID-" ++ ?x)) with (parse_signed x).
  destruct (pk obj <? 0) eqn:E.
  - apply Z.ltb_lt in E. unfold parse_signed.
    rewrite digits_value_zero_fill. simpl. f_equal. lia.
  - apply Z.ltb_ge in E.
    rewrite (parse_signed_unsigned _ _ (digits_value_zero_fill 8 _)).
    f_equal. lia.
Qed.

(** X12: a display identifier reads back to the identifier it was made
    from, so two rows have the same display identifier only if they have
    the same primary key. *)
Theorem display_id_injective (a b : Video) :
  parse_display_id (display_id a) = Some (pk a) /\
  (display_id a = display_id b -> pk a = pk b).
Proof.
  split; [apply parse_display_id_round_trip|].
  intro E. pose proof (parse_display_id_round_trip a) as Ha.
  rewrite E, parse_display_id_round_trip in Ha. congruence.
Qed.

Lemma display_id_injective_witness : pk pilot = pk pilot.
Proof.
  apply (proj2 (display_id_injective pilot pilot)). reflexivity.
Defined.

Lemma of_uint_acc_lower (l : Decimal.uint) (acc : positive) :
  Z.pos acc * 10 ^ Z.of_nat (Decimal.nb_digits l) <= Z.pos (Pos.of_uint_acc l acc).
Proof.
  revert acc. induction l as [|l IH|l IH|l IH|l IH|l IH|l IH|l IH|l IH|l IH|l IH];
    intro acc; cbn [Decimal.nb_digits Pos.of_uint_acc];
    [simpl; lia | ..];
    rewrite Nat2Z.inj_succ, Z.pow_succ_r by lia;
    pose proof (Z.pow_nonneg 10 (Z.of_nat (Decimal.nb_digits l))) as P;
    match goal with
    | |- _ <= Z.pos (Pos.of_uint_acc l ?a) =>
        specialize (IH a); rewrite ?Pos2Z.inj_add, ?Pos2Z.inj_mul in IH
    end; nia.
Qed.

Lemma leading_digit_lower (l : Decimal.uint) (acc p : positive) :
  Pos.of_uint_acc l acc = p ->
  10 ^ Z.of_nat (Decimal.nb_digits l) <= Z.pos p.
Proof.
  intros <-. pose proof (of_uint_acc_lower l acc) as H.
  pose proof (Z.pow_nonneg 10 (Z.of_nat (Decimal.nb_digits l))) as P. nia.
Qed.

Lemma to_uint_no_leading_zero (p : positive) (l : Decimal.uint) :
  Pos.to_uint p <> Decimal.D0 l.
Proof.
  intro E.
  pose proof (DecimalPos.Unsigned.to_of (Pos.to_uint p)) as T.
  rewrite DecimalPos.Unsigned.of_to in T. simpl in T.
  rewrite E in T. unfold Decimal.unorm in T. simpl in T.
  destruct (Decimal.nzhead l) eqn:Z0; try discriminate T.
  - injection T as ->. apply (DecimalPos.Unsigned.to_uint_nonzero p). exact E.
  - exact (DecimalFacts.nzhead_nonzero _ _ Z0).
Qed.

Lemma decimal_length_bound (n : N) (k : nat) :
  (1 <= k)%nat -> Z.of_N n < 10 ^ Z.of_nat k ->
  (String.length (decimal n) <= k)%nat.
Proof.
  intros Hk Hn. unfold decimal. rewrite string_of_uint_length.
  destruct n as [|p]; [simpl; lia|]. simpl N.to_uint.
  pose proof (DecimalPos.Unsigned.of_to p) as O.
  pose proof (to_uint_no_leading_zero p) as Z0.
  destruct (Pos.to_uint p) as [|l|l|l|l|l|l|l|l|l|l] eqn:E;
    [simpl; lia | exfalso; exact (Z0 l eq_refl) | ..];
    simpl in O; injection O as O; apply leading_digit_lower in O;
    cbn [Decimal.nb_digits];
    destruct (Nat.le_gt_cases (S (Decimal.nb_digits l)) k) as [L|L]; trivial;
    exfalso;
    assert (M : 10 ^ Z.of_nat k <= 10 ^ Z.of_nat (Decimal.nb_digits l))
      by (apply Z.pow_le_mono_r; lia);
    simpl in Hn; lia.
Qed.

(** X13: a display identifier has at least twelve characters, and exactly
    twelve ([VID-] and eight digits) for every primary key from 0 up to
    99,999,999. *)
Theorem display_id_width (obj : Video) :
  (12 <= String.length (display_id obj))%nat /\
  (0 <= pk obj < 10 ^ 8 -> String.length (display_id obj) = 12%nat).
Proof.
  unfold display_id, format_08d. rewrite string_length_append.
  change (String.length "VID-") with 4%nat.
  split.
  - destruct (pk obj <? 0); cbn [String.length];
      rewrite zero_fill_length; lia.
  - intros [H0 H8].
    destruct (pk obj <? 0) eqn:E; [apply Z.ltb_lt in E; lia|].
    rewrite zero_fill_length.
    assert (L : (String.length (decimal (Z.to_N (pk obj))) <= 8)%nat).
    { apply decimal_length_bound; [lia|]. rewrite Z2N.id by lia. exact H8. }
    lia.
Qed.

Lemma display_id_width_witness : String.length (display_id pilot) = 12%nat.
Proof.
  apply (proj2 (display_id_width pilot)). simpl. lia.
Defined.

(** ** After the bulk update *)

(** X14: the update that [unpublish_selected] performs before it raises
    keeps the primary keys of the table in place, leaves every row the
    queryset does not select as it was, and turns each selected row into
    one that no accessor shows as published at any clock reading:
    [is_published] is false, [get_video_id] returns nothing, the badge is
    the red one and [objects.published()] does not return it. *)
Theorem unpublished_rows_stay_hidden (queryset : QuerySet) (db : list Video)
        (r : Video) (now : datetime) :
  In r db ->
  let db' := fst (unpublish_selected queryset db) in
  map pk db' = map pk db /\
  (qs_where queryset r = false -> In r db') /\
  (qs_where queryset r = true ->
   In (set_active false r) db' /\
   is_published (set_active false r) now = false /\
   get_video_id (set_active false r) now = None /\
   display_published_status (set_active false r) now = draft_badge /\
   forall nl m,
     ~ In (set_active false r) (evaluate nl db' (VideoManager_published now m))).
Proof.
  intros Hin db'. unfold db'. rewrite unpublish_fst.
  split; [|split].
  - rewrite map_map. apply map_ext. intro x.
    destruct (qs_where queryset x); reflexivity.
  - intro Hs. apply in_map_iff. exists r. rewrite Hs. auto.
  - intro Hs.
    assert (P : is_published (set_active false r) now = false) by reflexivity.
    split; [apply in_map_iff; exists r; rewrite Hs; auto|].
    split; [exact P|]. split; [unfold get_video_id; rewrite P; reflexivity|].
    split; [unfold display_published_status; rewrite P; reflexivity|].
    intros nl m H. apply published_rows in H. destruct H as [_ H]. congruence.
Qed.

Lemma unpublished_rows_stay_hidden_witness :
  get_video_id (set_active false finale) 1000 = None /\
  In rough_cut
     (fst (unpublish_selected (selected [1; 2; 3] VideoPublishedProxyAdmin_get_queryset)
                              library)).
Proof.
  pose proof (unpublished_rows_stay_hidden
                (selected [1; 2; 3] VideoPublishedProxyAdmin_get_queryset)
                library finale 1000 (or_intror (or_introl eq_refl))) as (_ & _ & Hs).
  pose proof (unpublished_rows_stay_hidden
                (selected [1; 2; 3] VideoPublishedProxyAdmin_get_queryset)
                library rough_cut 1000
                (or_intror (or_intror (or_intror (or_introl eq_refl)))))
    as (_ & Hu & _).
  split.
  - apply (Hs eq_refl).
  - apply (Hu eq_refl).
Defined.
